(** * MultiLingualTranslator: the server's translation flow

    A shallow embedding of [server/routes.ts] (the request handlers, the
    provider fallback of [translateText] and the heuristic of
    [detectLanguage]), of [server/storage.ts] (the in-memory store) and of
    the state and handlers of the page [client/src/pages/Home.tsx],
    followed by the properties proved about them.

    Conventions.
    - A JavaScript string is its sequence of UTF-16 code units.
    - A value read from a response body ([await response.json()]) is a
      [JSValue]; numbers are the integer-valued ones, which is all that the
      tests [=== 200] and truthiness look at.
    - An [async] function becomes a function into [Eff]: the completion
      (returned value or thrown error) together with the outbound requests
      it issued, in order.  The outside world (environment variables, the
      answers of the remote services, the platform's string functions) is a
      [World] passed explicitly.
    - Ids and timestamps are JavaScript numbers holding integers far below
      2^53, where their arithmetic is exact; they are modelled in [Z]. *)

From Stdlib Require Import List ZArith NArith Bool String Ascii Lia.
From Stdlib Require Import Sorting.Sorted Sorting.Permutation.
Import ListNotations.

Set Implicit Arguments.

(* ===================================================================== *)
(** * JavaScript values *)
(* ===================================================================== *)

Module JS.

(** A string: its UTF-16 code units. *)
Definition jsstring := list N.

(** A source literal (ASCII) as a JavaScript string. *)
Definition lit (s : string) : jsstring :=
  map N_of_ascii (list_ascii_of_string s).

Fixpoint str_eqb (a b : jsstring) : bool :=
  match a, b with
  | [], [] => true
  | x :: a', y :: b' => N.eqb x y && str_eqb a' b'
  | _, _ => false
  end.

(** Values as [JSON.parse] builds them, plus [undefined].  An object is
    its own properties, each name once. *)
#[local] Unset Elimination Schemes.
Inductive JSValue :=
| JUndefined
| JNull
| JBool (b : bool)
| JNum (n : Z)
| JStr (s : jsstring)
| JArr (elems : list JSValue)
| JObj (fields : list (jsstring * JSValue)).
#[local] Set Elimination Schemes.

(** The errors this program can meet. *)
Inductive JSError :=
| TypeError                (* property of undefined/null, call of a non-function *)
| FetchError               (* [fetch] rejected *)
| SyntaxError              (* [response.json()] on a body that is not JSON *)
| URIError                 (* [encodeURIComponent] on a lone surrogate *)
| Error (message : string) (* [new Error(message)] *).

Inductive Completion (A : Type) :=
| Return (a : A)
| Throw (e : JSError).
Arguments Return {A} a.
Arguments Throw {A} e.

(** ToBoolean. *)
Definition truthy (v : JSValue) : bool :=
  match v with
  | JUndefined | JNull => false
  | JBool b => b
  | JNum n => negb (n =? 0)%Z
  | JStr s => match s with [] => false | _ => true end
  | JArr _ | JObj _ => true
  end.

(** Truthiness of a value that is a string or [undefined]
    (an environment variable, a field of a request body). *)
Definition truthy_str (o : option jsstring) : bool :=
  match o with
  | Some (_ :: _) => true
  | _ => false
  end.

(** [o || dflt] on a string-or-undefined value. *)
Definition or_default (o : option jsstring) (dflt : jsstring) : jsstring :=
  match o with
  | Some (c :: s) => c :: s
  | _ => dflt
  end.

Fixpoint assoc (k : jsstring) (fs : list (jsstring * JSValue)) : option JSValue :=
  match fs with
  | [] => None
  | (k', v) :: fs' => if str_eqb k k' then Some v else assoc k fs'
  end.

Definition or_undefined (o : option JSValue) : JSValue :=
  match o with Some v => v | None => JUndefined end.

(** A property read: [v.name] or [v[0]]. *)
Inductive Sel :=
| Field (name : string)
| Zero.

(** One property read.  The names this program reads ([data],
    [translations], [translatedText], [text], [translation],
    [responseStatus], [responseData], [detections], [language]) are not
    own or inherited properties of an array, a string, a number or a
    boolean, so only an object can answer [v.name]; [v[0]] is also
    answered by an array and by a string. *)
Definition select (v : JSValue) (p : Sel) : Completion JSValue :=
  match v, p with
  | (JUndefined | JNull), _ => Throw TypeError
  | JObj fs, Field name => Return (or_undefined (assoc (lit name) fs))
  | JObj fs, Zero => Return (or_undefined (assoc (lit "0") fs))
  | JArr elems, Zero => Return (or_undefined (nth_error elems 0))
  | JStr (c :: _), Zero => Return (JStr [c])
  | _, _ => Return JUndefined
  end.

(** A chain of reads, [v.a.b[0].c], left to right. *)
Fixpoint path (v : JSValue) (ps : list Sel) : Completion JSValue :=
  match ps with
  | [] => Return v
  | p :: ps' =>
      match select v p with
      | Return v' => path v' ps'
      | Throw e => Throw e
      end
  end.

(** [a && b]: [b] is evaluated only when [a] is truthy. *)
Definition and_also (a b : Completion JSValue) : Completion JSValue :=
  match a with
  | Return v => if truthy v then b else Return v
  | Throw e => Throw e
  end.

(** [s.toLowerCase()] where [s] is any value: only a string has the
    method; calling it on another non-nullish value is calling
    [undefined]. *)
Definition call_toLowerCase (lower : jsstring -> jsstring) (v : JSValue)
  : Completion jsstring :=
  match v with
  | JStr s => Return (lower s)
  | _ => Throw TypeError
  end.

(** [a === b] against a number literal. *)
Definition strict_eq_num (v : JSValue) (n : Z) : bool :=
  match v with
  | JNum m => (m =? n)%Z
  | _ => false
  end.

(** Whether ToString(v), which a template literal applies to an
    interpolated value, returns; otherwise it throws a TypeError.
    A primitive always converts.  An object is converted by its
    [toString], then its [valueOf]: a parsed object inherits both from
    [Object.prototype], the first giving a string; an own property named
    [toString] hides the inherited method and is never callable, and
    neither an own nor the inherited [valueOf] gives a primitive, so the
    conversion throws.  An array is converted by [join], which converts
    every element but [undefined] and [null]. *)
Fixpoint to_string_returns (v : JSValue) : bool :=
  match v with
  | JUndefined | JNull | JBool _ | JNum _ | JStr _ => true
  | JArr elems => forallb to_string_returns elems
  | JObj fields =>
      match assoc (lit "toString") fields with
      | Some _ => false
      | None => true
      end
  end.

End JS.

(* ===================================================================== *)
(** * The heuristic of [detectLanguage] *)
(* ===================================================================== *)

Module Detector.
Import JS.

Definition in_range (lo hi c : N) : bool := (lo <=? c)%N && (c <=? hi)%N.

(** [re.test(text)] for a regular expression that is one character class
    (without the [u] flag a class matches single code units). *)
Definition test_class (cls : N -> bool) (text : jsstring) : bool :=
  existsb cls text.

(** [/[a-zA-Z]/] *)
Definition isLatin (c : N) : bool := in_range 97 122 c || in_range 65 90 c.
(** [/[\u0400-\u04FF]/] *)
Definition isCyrillic (c : N) : bool := in_range 0x0400 0x04FF c.
(** [/[\u0600-\u06FF]/] *)
Definition isArabic (c : N) : bool := in_range 0x0600 0x06FF c.
(** [/[\u4e00-\u9fff]/] *)
Definition isChinese (c : N) : bool := in_range 0x4e00 0x9fff c.
(** [/[\u3040-\u309f\u30a0-\u30ff]/] *)
Definition isJapanese (c : N) : bool :=
  in_range 0x3040 0x309f c || in_range 0x30a0 0x30ff c.
(** [/[\uac00-\ud7af]/] *)
Definition isKorean (c : N) : bool := in_range 0xac00 0xd7af c.

(** The body of the second [try] of [detectLanguage]. *)
Definition heuristic (text : jsstring) : string :=
  let hasLatin := test_class isLatin text in
  let hasCyrillic := test_class isCyrillic text in
  let hasArabic := test_class isArabic text in
  let hasChinese := test_class isChinese text in
  let hasJapanese := test_class isJapanese text in
  let hasKorean := test_class isKorean text in
  if hasChinese then "zh"
  else if hasJapanese then "ja"
  else if hasKorean then "ko"
  else if hasCyrillic then "ru"
  else if hasArabic then "ar"
  else if hasLatin then "en"
  else "en".

End Detector.

(* ===================================================================== *)
(** * Outbound calls and the effect of an [async] function *)
(* ===================================================================== *)

Module Net.
Import JS.

(** What a call of [fetch] sends.  The URL, headers and body are kept as the
    values the source interpolates into them. *)
Inductive Request :=
| GoogleTranslate (key q : jsstring) (source : option jsstring) (target : jsstring)
| GoogleDetect (key q : jsstring)
| MicrosoftTranslate (to : jsstring) (from : option jsstring)
                     (subscriptionKey text : jsstring)
| LingvaTranslate (sourceCode to encodedText : jsstring)
| MyMemoryGet (encodedQ langpair : jsstring).

(** A response: [response.ok] and what [response.json()] resolves to
    ([None] when the body is not JSON and the promise rejects). *)
Record Response := { ok : bool; body : option JSValue }.

Inductive FetchResult :=
| Rejected
| Fulfilled (r : Response).

(** Everything outside the program. *)
Record World := {
  GOOGLE_TRANSLATE_API_KEY : option jsstring;   (* process.env *)
  AZURE_TRANSLATOR_KEY : option jsstring;       (* process.env *)
  network : Request -> FetchResult;
  toLowerCase : jsstring -> jsstring;           (* String.prototype.toLowerCase *)
  encodeURIComponent : jsstring -> option jsstring  (* [None]: URIError *)
}.

(** A computation: how it completes, and the requests it sent. *)
Definition Eff (A : Type) : Type := (Completion A * list Request)%type.

Definition ret {A} (a : A) : Eff A := (Return a, []).
Definition throw {A} (e : JSError) : Eff A := (Throw e, []).

Definition bind {A B} (m : Eff A) (k : A -> Eff B) : Eff B :=
  match m with
  | (Return a, sent) => let (r, sent') := k a in (r, sent ++ sent')
  | (Throw e, sent) => (Throw e, sent)
  end.

(** A pure step that may throw. *)
Definition step {A} (c : Completion A) : Eff A := (c, []).

Definition completion {A} (m : Eff A) : Completion A := fst m.
Definition sent {A} (m : Eff A) : list Request := snd m.

Declare Scope eff_scope.
Delimit Scope eff_scope with eff.
Notation "x <- m ;; k" := (bind m (fun x => k))
  (at level 61, m at next level, right associativity) : eff_scope.

(** [await fetch(...)] *)
Definition fetch (w : World) (req : Request) : Eff Response :=
  (match network w req with
   | Rejected => Throw FetchError
   | Fulfilled r => Return r
   end, [req]).

(** [await response.json()] *)
Definition json (r : Response) : Eff JSValue :=
  step (match body r with Some v => Return v | None => Throw SyntaxError end).

(** A [try { ... } catch (error) { console.error(...) }] block inside a
    function: the block either makes the function return a value
    ([Some v]) or falls out of the [try] ([None]); an error thrown inside
    it is caught and logged, and control falls out as well. *)
Definition try_catch {A} (block : Eff (option A)) : Eff (option A) :=
  match block with
  | (Throw _, sent) => (Return None, sent)
  | done => done
  end.

(** Sequencing of statements after a block that may have returned. *)
Definition or_else {A} (block : Eff (option A)) (rest : Eff A) : Eff A :=
  bind block (fun r => match r with Some v => ret v | None => rest end).

Notation "b 'ORELSE' k" := (or_else b k)
  (at level 62, right associativity) : eff_scope.

End Net.

(* ===================================================================== *)
(** * server/storage.ts *)
(* ===================================================================== *)

Module Storage.
Import JS.

(** [InsertTranslation] of the shared schema.  [translatedText] holds
    whatever [translateText] resolved to. *)
Record InsertTranslation := {
  ins_sourceText : jsstring;
  ins_translatedText : JSValue;
  ins_sourceLanguage : jsstring;
  ins_targetLanguage : jsstring
}.

(** [Translation]; [createdAt] is the [getTime()] of its [Date]. *)
Record Translation := {
  id : Z;
  sourceText : jsstring;
  translatedText : JSValue;
  sourceLanguage : jsstring;
  targetLanguage : jsstring;
  createdAt : Z
}.

(** A [Map<number, V>]: its entries in insertion order. *)
Definition NumMap (V : Type) := list (Z * V).

(** [m.set(k, v)]: an existing key keeps its place and takes the new
    value; a new key goes last. *)
Fixpoint map_set {V} (k : Z) (v : V) (m : NumMap V) : NumMap V :=
  match m with
  | [] => [(k, v)]
  | (k', v') :: m' =>
      if (k =? k')%Z then (k', v) :: m' else (k', v') :: map_set k v m'
  end.

(** [Array.from(m.values())] *)
Definition map_values {V} (m : NumMap V) : list V := map snd m.

(** [MemStorage], its translation half (the user half is not used by the
    routes). *)
Record MemStorage := {
  translations : NumMap Translation;
  currentTranslationId : Z
}.

(** [new MemStorage()] *)
Definition new_MemStorage : MemStorage :=
  {| translations := []; currentTranslationId := 1 |}.

(** [createTranslation]; [now] is the time [new Date()] reads. *)
Definition createTranslation (insertTranslation : InsertTranslation) (now : Z)
    (this : MemStorage) : Translation * MemStorage :=
  let id := currentTranslationId this in
  let translation :=
    {| id := id;
       sourceText := ins_sourceText insertTranslation;
       translatedText := ins_translatedText insertTranslation;
       sourceLanguage := ins_sourceLanguage insertTranslation;
       targetLanguage := ins_targetLanguage insertTranslation;
       createdAt := now |} in
  (translation,
   {| translations := map_set id translation (translations this);
      currentTranslationId := currentTranslationId this + 1 |}).

(** [Array.prototype.sort(cmp)], which is stable: an element moves behind
    another only when [cmp] says so ([cmp a b > 0] puts [a] after [b]). *)
Fixpoint sort_insert {A} (cmp : A -> A -> Z) (x : A) (sorted : list A) : list A :=
  match sorted with
  | [] => [x]
  | y :: rest =>
      if (cmp x y <=? 0)%Z then x :: y :: rest
      else y :: sort_insert cmp x rest
  end.

Fixpoint sort {A} (cmp : A -> A -> Z) (l : list A) : list A :=
  match l with
  | [] => []
  | x :: l' => sort_insert cmp x (sort cmp l')
  end.

(** [arr.slice(0, end)] for an integer [end]: a negative [end] counts from
    the end of the array. *)
Definition slice0 {A} (l : list A) (end_ : Z) : list A :=
  let len := Z.of_nat (List.length l) in
  let final := if (end_ <? 0)%Z then Z.max (len + end_) 0 else Z.min end_ len in
  firstn (Z.to_nat final) l.

(** A parameter with a default value; [None] is an omitted argument. *)
Definition or_omitted (arg : option Z) (dflt : Z) : Z :=
  match arg with Some n => n | None => dflt end.

(** [getRecentTranslations(limit = 10)] *)
Definition getRecentTranslations (limit : option Z) (this : MemStorage)
    : list Translation :=
  let limit := or_omitted limit 10 in
  let allTranslations := map_values (translations this) in
  slice0 (sort (fun a b => createdAt b - createdAt a)%Z allTranslations) limit.

End Storage.

(* ===================================================================== *)
(** * server/routes.ts *)
(* ===================================================================== *)

Module Routes.
Import JS Net Storage.
Local Open Scope eff_scope.

(** ** [translateText] *)

(** What each attempt sends, as the source assembles it. *)
Definition google_request (API_KEY text from to : jsstring) : Request :=
  GoogleTranslate API_KEY text
    (if str_eqb from (lit "auto") then None else Some from) to.

Definition microsoft_request (w : World) (text from to : jsstring) : Request :=
  MicrosoftTranslate to
    (if negb (str_eqb from (lit "auto")) then Some from else None)
    (or_default (AZURE_TRANSLATOR_KEY w) (lit "none"))
    text.

Definition lingva_request (encoded from to : jsstring) : Request :=
  let sourceCode := if str_eqb from (lit "auto") then lit "auto" else from in
  LingvaTranslate sourceCode to encoded.

Definition mymemory_request (encoded from to : jsstring) : Request :=
  let langPair :=
    ((if str_eqb from (lit "auto") then lit "en" else from) ++ lit "|" ++ to)%list in
  MyMemoryGet encoded langPair.

(** [encodeURIComponent(text)] inside a template literal. *)
Definition encoded_text (w : World) (text : jsstring) : Eff jsstring :=
  step (match encodeURIComponent w text with
        | Some e => Return e
        | None => Throw URIError
        end).

(** The [try] block of the Google Translate attempt. *)
Definition google_block (w : World) (API_KEY text from to : jsstring)
    : Eff (option JSValue) :=
  response <- fetch w (google_request API_KEY text from to) ;;
  if ok response then
    data <- json response ;;
    result <- step (path data [Field "data"; Field "translations"; Zero;
                               Field "translatedText"]) ;;
    ret (Some result)
  else ret None.

(** The [try] block of the Microsoft Translator attempt. *)
Definition microsoft_block (w : World) (text from to : jsstring)
    : Eff (option JSValue) :=
  response <- fetch w (microsoft_request w text from to) ;;
  if ok response then
    data <- json response ;;
    guard <- step (and_also
                     (and_also
                        (and_also (Return data) (path data [Zero]))
                        (path data [Zero; Field "translations"]))
                     (path data [Zero; Field "translations"; Zero])) ;;
    if truthy guard then
      result <- step (path data [Zero; Field "translations"; Zero; Field "text"]) ;;
      ret (Some result)
    else ret None
  else ret None.

(** The [try] block of the Lingva Translate attempt. *)
Definition lingva_block (w : World) (text from to : jsstring)
    : Eff (option JSValue) :=
  encoded <- encoded_text w text ;;
  response <- fetch w (lingva_request encoded from to) ;;
  if ok response then
    data <- json response ;;
    guard <- step (and_also (Return data) (path data [Field "translation"])) ;;
    if truthy guard then
      result <- step (path data [Field "translation"]) ;;
      ret (Some result)
    else ret None
  else ret None.

(** The [try] block of the MyMemory attempt. *)
Definition mymemory_block (w : World) (text from to : jsstring)
    : Eff (option JSValue) :=
  encoded <- encoded_text w text ;;
  response <- fetch w (mymemory_request encoded from to) ;;
  if ok response then
    data <- json response ;;
    status <- step (path data [Field "responseStatus"]) ;;
    guard <- step (and_also
                     (and_also (Return (JBool (strict_eq_num status 200)))
                               (path data [Field "responseData"]))
                     (path data [Field "responseData"; Field "translatedText"])) ;;
    if truthy guard then
      translated <- step (path data [Field "responseData"; Field "translatedText"]) ;;
      lowered <- step (call_toLowerCase (toLowerCase w) translated) ;;
      if negb (str_eqb lowered (toLowerCase w text)) then ret (Some translated)
      else ret None
    else ret None
  else ret None.

(** [if (API_KEY && API_KEY !== "demo_key")] *)
Definition usable_key (API_KEY : option jsstring) : option jsstring :=
  match API_KEY with
  | Some key =>
      if truthy_str (Some key) && negb (str_eqb key (lit "demo_key"))
      then Some key else None
  | None => None
  end.

(** The four attempts, as the statements of [translateText] in order. *)
Definition google_attempt (w : World) (text from to : jsstring)
    : Eff (option JSValue) :=
  match usable_key (GOOGLE_TRANSLATE_API_KEY w) with
  | Some API_KEY => try_catch (google_block w API_KEY text from to)
  | None => ret None
  end.

Definition microsoft_attempt (w : World) (text from to : jsstring) :=
  try_catch (microsoft_block w text from to).

Definition lingva_attempt (w : World) (text from to : jsstring) :=
  try_catch (lingva_block w text from to).

Definition mymemory_attempt (w : World) (text from to : jsstring) :=
  try_catch (mymemory_block w text from to).

Definition translateText (w : World) (text from to : jsstring) : Eff JSValue :=
  google_attempt w text from to
  ORELSE microsoft_attempt w text from to
  ORELSE lingva_attempt w text from to
  ORELSE mymemory_attempt w text from to
  ORELSE throw (Error "All translation services failed").

(** ** [detectLanguage] *)

Definition google_detect_block (w : World) (API_KEY text : jsstring)
    : Eff (option JSValue) :=
  response <- fetch w (GoogleDetect API_KEY text) ;;
  if ok response then
    data <- json response ;;
    result <- step (path data [Field "data"; Field "detections"; Zero; Zero;
                               Field "language"]) ;;
    ret (Some result)
  else ret None.

Definition detectLanguage (w : World) (text : jsstring) : Eff JSValue :=
  match usable_key (GOOGLE_TRANSLATE_API_KEY w) with
  | Some API_KEY => try_catch (google_detect_block w API_KEY text)
  | None => ret None
  end
  ORELSE ret (JStr (lit (Detector.heuristic text))).

(** ** The handlers *)

(** The fields the handlers read from [req.body]: each a string, or absent. *)
Record Body := {
  text : option jsstring;
  from : option jsstring;
  to : option jsstring
}.

(** What [res.json] is given. *)
Inductive Json :=
| ErrorJson (error : string)
| TranslateJson (translatedText : JSValue) (sourceLanguage targetLanguage : jsstring)
| DetectJson (language : JSValue)
| TranslationsJson (translations : list Translation).

Record HttpResponse := { status : Z; payload : Json }.

(** [res.status(n).json(j)], and [res.json(j)] with the default status. *)
Definition res_status_json (n : Z) (j : Json) : HttpResponse :=
  {| status := n; payload := j |}.
Definition res_json (j : Json) : HttpResponse := res_status_json 200 j.

(** What a handler leaves behind: the response, the store, and the
    requests sent on the way. *)
Record Handled := {
  response : HttpResponse;
  storage : MemStorage;
  outbound : list Request
}.

(** The [console.log] of the translate handler.  Its argument is a
    template literal over [text], [from || 'auto'], [translatedText] and
    [to]; the three others are strings, so forming the line throws exactly
    when [translatedText] has no string conversion.  What is printed is
    not kept. *)
Definition log_translation_result (translatedText : JSValue) : Completion unit :=
  if to_string_returns translatedText then Return tt else Throw TypeError.

(** [app.post("/api/translate", ...)]; [now] is the clock reading used if
    a record is created.  The log line, the record and the answer are all
    inside the [try]. *)
Definition post_translate (w : World) (now : Z) (body : Body) (store : MemStorage)
    : Handled :=
  if negb (truthy_str (text body)) || negb (truthy_str (to body)) then
    {| response := res_status_json 400 (ErrorJson "Missing required fields");
       storage := store; outbound := [] |}
  else
    (* past the check both are non-empty strings *)
    let text_ := or_default (text body) [] in
    let to_ := or_default (to body) [] in
    match translateText w text_ (or_default (from body) (lit "auto")) to_ with
    | (Return translatedText, reqs) =>
        match log_translation_result translatedText with
        | Return _ =>
            let (translation, store') :=
              createTranslation
                {| ins_sourceText := text_;
                   ins_translatedText := translatedText;
                   ins_sourceLanguage := or_default (from body) (lit "auto");
                   ins_targetLanguage := to_ |} now store in
            {| response := res_json (TranslateJson translatedText
                                       (or_default (from body) (lit "auto")) to_);
               storage := store'; outbound := reqs |}
        | Throw error =>
            {| response := res_status_json 500 (ErrorJson "Translation failed");
               storage := store; outbound := reqs |}
        end
    | (Throw error, reqs) =>
        {| response := res_status_json 500 (ErrorJson "Translation failed");
           storage := store; outbound := reqs |}
    end.

(** [app.post("/api/detect-language", ...)] *)
Definition post_detect_language (w : World) (body : Body) (store : MemStorage)
    : Handled :=
  if negb (truthy_str (text body)) then
    {| response := res_status_json 400 (ErrorJson "Text is required");
       storage := store; outbound := [] |}
  else
    match detectLanguage w (or_default (text body) []) with
    | (Return detectedLanguage, reqs) =>
        {| response := res_json (DetectJson detectedLanguage);
           storage := store; outbound := reqs |}
    | (Throw error, reqs) =>
        {| response := res_status_json 500 (ErrorJson "Language detection failed");
           storage := store; outbound := reqs |}
    end.

(** [app.get("/api/translations", ...)] *)
Definition get_translations (store : MemStorage) : Handled :=
  {| response := res_json (TranslationsJson (getRecentTranslations (Some 10%Z) store));
     storage := store; outbound := [] |}.

End Routes.

(* ===================================================================== *)
(** * server/storage.ts, the user half *)
(* ===================================================================== *)

Module Users.
Import JS Storage.

(** [InsertUser] and [User] of the shared schema. *)
Record InsertUser := {
  ins_username : jsstring;
  ins_password : jsstring
}.

Record User := {
  id : Z;
  username : jsstring;
  password : jsstring
}.

(** [m.get(k)]: [None] is [undefined]. *)
Fixpoint map_get {V} (k : Z) (m : NumMap V) : option V :=
  match m with
  | [] => None
  | (k', v) :: m' => if (k =? k')%Z then Some v else map_get k m'
  end.

(** The fields [users] and [currentUserId] of [MemStorage]. *)
Record UserStorage := {
  users : NumMap User;
  currentUserId : Z
}.

(** Their values after [new MemStorage()]. *)
Definition new_UserStorage : UserStorage :=
  {| users := []; currentUserId := 1 |}.

(** [getUser] *)
Definition getUser (id : Z) (this : UserStorage) : option User :=
  map_get id (users this).

(** [getUserByUsername]: [Array.prototype.find] answers the first match. *)
Definition getUserByUsername (name : jsstring) (this : UserStorage)
    : option User :=
  find (fun user => str_eqb (username user) name) (map_values (users this)).

(** [createUser] *)
Definition createUser (insertUser : InsertUser) (this : UserStorage)
    : User * UserStorage :=
  let id := currentUserId this in
  let user := {| id := id;
                 username := ins_username insertUser;
                 password := ins_password insertUser |} in
  (user,
   {| users := map_set id user (users this);
      currentUserId := currentUserId this + 1 |}).

End Users.

(* ===================================================================== *)
(** * client/src/pages/Home.tsx *)
(* ===================================================================== *)

Module Client.
Import JS.

(** The component's state; the fields of a response are taken at the type
    the state variables have, string. *)
Record State := {
  sourceText : jsstring;
  translatedText : jsstring;
  sourceLanguage : jsstring;
  targetLanguage : jsstring;
  detectedLanguage : jsstring
}.

(** The [useState] initial values. *)
Definition initial : State :=
  {| sourceText := []; translatedText := [];
     sourceLanguage := lit "auto"; targetLanguage := lit "es";
     detectedLanguage := [] |}.

(** White space and line terminators, which [String.prototype.trim]
    strips. *)
Definition is_space (c : N) : bool :=
  Detector.in_range 0x09 0x0D c || N.eqb c 0x20 || N.eqb c 0xA0
  || N.eqb c 0x1680 || Detector.in_range 0x2000 0x200A c
  || N.eqb c 0x2028 || N.eqb c 0x2029 || N.eqb c 0x202F
  || N.eqb c 0x205F || N.eqb c 0x3000 || N.eqb c 0xFEFF.

Fixpoint trim_start (s : jsstring) : jsstring :=
  match s with
  | [] => []
  | c :: s' => if is_space c then trim_start s' else s
  end.

(** [s.trim()] *)
Definition trim (s : jsstring) : jsstring :=
  rev (trim_start (rev (trim_start s))).

(** The object given to [translateMutation.mutate]. *)
Record TranslateData := {
  data_text : jsstring;
  data_from : jsstring;
  data_to : jsstring
}.

(** What the timer callback of the effect does when it fires: one call of
    [translateMutation.mutate], and one of [detectLanguageMutation.mutate]
    when the source language is ["auto"]. *)
Record Scheduled := {
  translate_call : TranslateData;
  detect_call : option jsstring
}.

(** The body of the [useEffect]: the state it leaves and the callback it
    hands to [setTimeout], if any. *)
Definition auto_translate_effect (s : State) : State * option Scheduled :=
  if str_eqb (trim (sourceText s)) [] then
    ({| sourceText := sourceText s; translatedText := [];
        sourceLanguage := sourceLanguage s; targetLanguage := targetLanguage s;
        detectedLanguage := detectedLanguage s |}, None)
  else
    (s, Some {| translate_call :=
                  {| data_text := sourceText s; data_from := sourceLanguage s;
                     data_to := targetLanguage s |};
                detect_call :=
                  if str_eqb (sourceLanguage s) (lit "auto")
                  then Some (sourceText s) else None |}).

(** The Translate button: [disabled] and what its [onClick] sends.
    [isPending] is the state of the mutation. *)
Definition translate_button_disabled (isPending : bool) (s : State) : bool :=
  negb (match trim (sourceText s) with [] => false | _ => true end) || isPending.

Definition translate_button_click (s : State) : TranslateData :=
  {| data_text := sourceText s; data_from := sourceLanguage s;
     data_to := targetLanguage s |}.

(** [handleSwapLanguages] *)
Definition handleSwapLanguages (s : State) : State :=
  if str_eqb (sourceLanguage s) (lit "auto") then s
  else
    {| sourceText := translatedText s; translatedText := sourceText s;
       sourceLanguage := targetLanguage s; targetLanguage := sourceLanguage s;
       detectedLanguage := detectedLanguage s |}.

(** [handleClearAll] *)
Definition handleClearAll (s : State) : State :=
  {| sourceText := []; translatedText := [];
     sourceLanguage := sourceLanguage s; targetLanguage := targetLanguage s;
     detectedLanguage := [] |}.

(** [handleCopyTranslation]: what is written to the clipboard, if
    anything. *)
Definition handleCopyTranslation (s : State) : option jsstring :=
  match translatedText s with
  | [] => None
  | t => Some t
  end.

(** [onSuccess] of the translate mutation. *)
Definition translate_onSuccess (data_translatedText data_sourceLanguage : jsstring)
    (s : State) : State :=
  {| sourceText := sourceText s; translatedText := data_translatedText;
     sourceLanguage := sourceLanguage s; targetLanguage := targetLanguage s;
     detectedLanguage :=
       if negb (str_eqb data_sourceLanguage (lit "auto"))
       then data_sourceLanguage else detectedLanguage s |}.

(** [onSuccess] of the detect mutation. *)
Definition detect_onSuccess (data_language : jsstring) (s : State) : State :=
  {| sourceText := sourceText s; translatedText := translatedText s;
     sourceLanguage := sourceLanguage s; targetLanguage := targetLanguage s;
     detectedLanguage := data_language |}.

(** What can happen to the component.  The two selects call
    [onValueChange] with the [value] of one of their items. *)
Inductive Event :=
| SourceTyped (value : jsstring)          (* the textarea's [onChange] *)
| SourceSelected (code : jsstring)        (* [setSourceLanguage] *)
| TargetSelected (code : jsstring)        (* [setTargetLanguage] *)
| SwapClicked
| ClearSourceClicked
| ClearTranslationClicked
| ClearAllClicked
| EffectRan
| TranslateSucceeded (data_translatedText data_sourceLanguage : jsstring)
| DetectSucceeded (data_language : jsstring).

Definition handle (s : State) (e : Event) : State :=
  match e with
  | SourceTyped v =>
      {| sourceText := v; translatedText := translatedText s;
         sourceLanguage := sourceLanguage s; targetLanguage := targetLanguage s;
         detectedLanguage := detectedLanguage s |}
  | SourceSelected code =>
      {| sourceText := sourceText s; translatedText := translatedText s;
         sourceLanguage := code; targetLanguage := targetLanguage s;
         detectedLanguage := detectedLanguage s |}
  | TargetSelected code =>
      {| sourceText := sourceText s; translatedText := translatedText s;
         sourceLanguage := sourceLanguage s; targetLanguage := code;
         detectedLanguage := detectedLanguage s |}
  | SwapClicked => handleSwapLanguages s
  | ClearSourceClicked =>
      {| sourceText := []; translatedText := translatedText s;
         sourceLanguage := sourceLanguage s; targetLanguage := targetLanguage s;
         detectedLanguage := detectedLanguage s |}
  | ClearTranslationClicked =>
      {| sourceText := sourceText s; translatedText := [];
         sourceLanguage := sourceLanguage s; targetLanguage := targetLanguage s;
         detectedLanguage := detectedLanguage s |}
  | ClearAllClicked => handleClearAll s
  | EffectRan => fst (auto_translate_effect s)
  | TranslateSucceeded t l => translate_onSuccess t l s
  | DetectSucceeded l => detect_onSuccess l s
  end.

(** The items of the target select:
    [languages.filter(lang => lang.code !== 'auto')], for the codes of the
    table [languages] of [lib/languages]. *)
Definition target_items (language_codes : list jsstring) : list jsstring :=
  filter (fun code => negb (str_eqb code (lit "auto"))) language_codes.

(** An event the page can produce, given the table. *)
Definition offered (language_codes : list jsstring) (e : Event) : Prop :=
  match e with
  | SourceSelected code => In code language_codes
  | TargetSelected code => In code (target_items language_codes)
  | _ => True
  end.

(** The state after a sequence of events. *)
Definition after (events : list Event) : State := fold_left handle events initial.

(** Modelled from the spec: [apiRequest] of [lib/queryClient], which is not
    among the sources, posts the object it is given as the JSON body
    [{text, from, to}] of POST /api/translate. *)
Definition body_of (d : TranslateData) : Routes.Body :=
  {| Routes.text := Some (data_text d);
     Routes.from := Some (data_from d);
     Routes.to := Some (data_to d) |}.

End Client.

(* ===================================================================== *)
(** * Vocabulary of the properties *)
(* ===================================================================== *)

Module Props.
Import JS Net Storage Routes.

(** The service answered [req] with a success status and a JSON body in
    which the reads [ps] lead to [v]. *)
Definition answers (w : World) (req : Request) (ps : list Sel) (v : JSValue)
    : Prop :=
  exists data,
    network w req = Fulfilled {| ok := true; body := Some data |}
    /\ path data ps = Return v.

(** The service gave no usable answer to [req]: the call errored, the
    status was not a success, or the body was not JSON. *)
Definition unanswered (w : World) (req : Request) : Prop :=
  network w req = Rejected
  \/ exists r, network w req = Fulfilled r /\ (ok r = false \/ body r = None).

(** The service answered [req] with a success status and a JSON body in
    which the reads [ps] lead to nothing: they stop at [undefined] or
    [null] on the way, or end at a falsy value. *)
Definition lacks (w : World) (req : Request) (ps : list Sel) : Prop :=
  exists data,
    network w req = Fulfilled {| ok := true; body := Some data |}
    /\ forall v, path data ps = Return v -> truthy v = false.

(** An attempt fell out of its [try] without returning. *)
Definition fails (attempt : Eff (option JSValue)) : Prop :=
  completion attempt = Return None.

(** An attempt made [translateText] return [v]. *)
Definition yields (attempt : Eff (option JSValue)) (v : JSValue) : Prop :=
  completion attempt = Return (Some v).

(** The providers in the order [translateText] tries them. *)
Inductive Provider := Google | Microsoft | Lingva | MyMemory.

Definition provider_of (r : Request) : Provider :=
  match r with
  | GoogleTranslate _ _ _ _ | GoogleDetect _ _ => Google
  | MicrosoftTranslate _ _ _ _ => Microsoft
  | LingvaTranslate _ _ _ => Lingva
  | MyMemoryGet _ _ => MyMemory
  end.

Definition rank (p : Provider) : nat :=
  match p with Google => 1 | Microsoft => 2 | Lingva => 3 | MyMemory => 4 end.

Definition attempt_of (p : Provider)
    : World -> jsstring -> jsstring -> jsstring -> Eff (option JSValue) :=
  match p with
  | Google => google_attempt
  | Microsoft => microsoft_attempt
  | Lingva => lingva_attempt
  | MyMemory => mymemory_attempt
  end.

(** The stores the server can be in: the fresh one, and what
    [createTranslation] makes of a store it can be in. *)
Inductive Reachable : MemStorage -> Prop :=
| Reachable_new : Reachable new_MemStorage
| Reachable_create ins now s :
    Reachable s -> Reachable (snd (createTranslation ins now s)).

(** [createTranslation] called once per element of [calls], in order:
    the records it returned and the store it left. *)
Fixpoint create_all (calls : list (InsertTranslation * Z)) (s : MemStorage)
    : list Translation * MemStorage :=
  match calls with
  | [] => ([], s)
  | (ins, now) :: calls' =>
      let (t, s') := createTranslation ins now s in
      let (ts, s'') := create_all calls' s' in
      (t :: ts, s'')
  end.

(** What holds of every store the server can be in: the records are held
    under their ids, in increasing order of id, all below the counter. *)
Definition store_inv (s : MemStorage) : Prop :=
  StronglySorted (fun a b => id a < id b)%Z (map_values (translations s))
  /\ Forall (fun kv => fst kv = id (snd kv)
                       /\ (id (snd kv) < currentTranslationId s)%Z)
       (translations s).

(** The order of [getRecentTranslations]: later [createdAt] first, equal
    [createdAt] in the order of creation. *)
Definition recent_before (a b : Translation) : Prop :=
  (createdAt a > createdAt b \/ (createdAt a = createdAt b /\ id a < id b))%Z.

(** The order with equal [createdAt] resolved towards the larger id. *)
Definition recent_before_id_desc (a b : Translation) : Prop :=
  (createdAt a > createdAt b \/ (createdAt a = createdAt b /\ id a > id b))%Z.

(** How far a run went: the attempt that returned, or none. *)
Inductive Run (w : World) (text from to : jsstring) : Eff JSValue -> Prop :=
| Run_google v :
    yields (google_attempt w text from to) v ->
    Run w text from to (Return v, sent (google_attempt w text from to))
| Run_microsoft v :
    fails (google_attempt w text from to) ->
    yields (microsoft_attempt w text from to) v ->
    Run w text from to
      (Return v, sent (google_attempt w text from to)
                 ++ sent (microsoft_attempt w text from to))%list
| Run_lingva v :
    fails (google_attempt w text from to) ->
    fails (microsoft_attempt w text from to) ->
    yields (lingva_attempt w text from to) v ->
    Run w text from to
      (Return v, sent (google_attempt w text from to)
                 ++ sent (microsoft_attempt w text from to)
                 ++ sent (lingva_attempt w text from to))%list
| Run_mymemory v :
    fails (google_attempt w text from to) ->
    fails (microsoft_attempt w text from to) ->
    fails (lingva_attempt w text from to) ->
    yields (mymemory_attempt w text from to) v ->
    Run w text from to
      (Return v, sent (google_attempt w text from to)
                 ++ sent (microsoft_attempt w text from to)
                 ++ sent (lingva_attempt w text from to)
                 ++ sent (mymemory_attempt w text from to))%list
| Run_exhausted :
    fails (google_attempt w text from to) ->
    fails (microsoft_attempt w text from to) ->
    fails (lingva_attempt w text from to) ->
    fails (mymemory_attempt w text from to) ->
    Run w text from to
      (Throw (Error "All translation services failed"),
       sent (google_attempt w text from to)
       ++ sent (microsoft_attempt w text from to)
       ++ sent (lingva_attempt w text from to)
       ++ sent (mymemory_attempt w text from to))%list.

(** A computation that sends nothing. *)
Definition silent {A} (m : Eff A) : Prop := sent m = [].

(** The ranges of Unicode the detector is said to tell apart, by the code
    points they span: the blocks CJK Unified Ideographs, Hiragana,
    Katakana, Hangul Syllables, Cyrillic and Arabic, and the letters of
    Basic Latin. *)
Definition CJK_Unified_Ideographs (c : N) : Prop := (0x4E00 <= c <= 0x9FFF)%N.
Definition Hiragana (c : N) : Prop := (0x3040 <= c <= 0x309F)%N.
Definition Katakana (c : N) : Prop := (0x30A0 <= c <= 0x30FF)%N.
Definition Kana (c : N) : Prop := Hiragana c \/ Katakana c.
Definition Hangul_Syllables (c : N) : Prop := (0xAC00 <= c <= 0xD7AF)%N.
Definition Cyrillic (c : N) : Prop := (0x0400 <= c <= 0x04FF)%N.
Definition Arabic (c : N) : Prop := (0x0600 <= c <= 0x06FF)%N.
Definition Basic_Latin_letter (c : N) : Prop :=
  (0x41 <= c <= 0x5A)%N \/ (0x61 <= c <= 0x7A)%N.

(** A text has a code unit in a range. *)
Definition contains (range : N -> Prop) (text : jsstring) : Prop :=
  exists c, In c text /\ range c.

End Props.

(* ===================================================================== *)
(** * Concrete worlds and inputs *)
(* ===================================================================== *)

Module Demo.
Import JS Net Storage Routes.

(** [toLowerCase] on ASCII letters. *)
Definition lower_ascii (s : jsstring) : jsstring :=
  map (fun c => if Detector.in_range 65 90 c then (c + 32)%N else c) s.

(** A world with the given keys and services; texts are taken to encode
    to themselves. *)
Definition world (google azure : option jsstring) (net : Request -> FetchResult)
    : World :=
  {| GOOGLE_TRANSLATE_API_KEY := google;
     AZURE_TRANSLATOR_KEY := azure;
     network := net;
     toLowerCase := lower_ascii;
     encodeURIComponent := fun s => Some s |}.

Definition json_ok (v : JSValue) : FetchResult :=
  Fulfilled {| ok := true; body := Some v |}.

(** No service reachable. *)
Definition offline : Request -> FetchResult := fun _ => Rejected.

(** Each service fails in its own way: the call to Microsoft errors,
    Lingva answers with a status that is not a success, and MyMemory
    answers without a [translatedText]. *)
Definition failing_each_way (r : Request) : FetchResult :=
  match r with
  | LingvaTranslate _ _ _ => Fulfilled {| ok := false; body := None |}
  | MyMemoryGet _ _ =>
      json_ok (JObj [(lit "responseStatus", JNum 200);
                     (lit "responseData", JObj [])])
  | _ => Rejected
  end.

(** Only Lingva answers, with ["Hola"]. *)
Definition lingva_hola (r : Request) : FetchResult :=
  match r with
  | LingvaTranslate _ _ _ => json_ok (JObj [(lit "translation", JStr (lit "Hola"))])
  | _ => Rejected
  end.

(** Microsoft answers with a translation entry that has no [text];
    Lingva would answer ["Hola"]. *)
Definition microsoft_no_text (r : Request) : FetchResult :=
  match r with
  | MicrosoftTranslate _ _ _ _ =>
      json_ok (JArr [JObj [(lit "translations", JArr [JObj []])]])
  | LingvaTranslate _ _ _ => json_ok (JObj [(lit "translation", JStr (lit "Hola"))])
  | _ => Rejected
  end.

(** Microsoft answers with a translation entry that has no [text]; no
    other service is reachable. *)
Definition microsoft_no_text_alone (r : Request) : FetchResult :=
  match r with
  | MicrosoftTranslate _ _ _ _ =>
      json_ok (JArr [JObj [(lit "translations", JArr [JObj []])]])
  | _ => Rejected
  end.

(** Only Lingva answers, with [{"translation": [{"toString": null}]}]. *)
Definition lingva_object (r : Request) : FetchResult :=
  match r with
  | LingvaTranslate _ _ _ =>
      json_ok (JObj [(lit "translation",
                      JArr [JObj [(lit "toString", JNull)]])])
  | _ => Rejected
  end.

(** Google answers with an empty [translatedText]. *)
Definition google_empty (r : Request) : FetchResult :=
  match r with
  | GoogleTranslate _ _ _ _ =>
      json_ok (JObj [(lit "data",
                 JObj [(lit "translations",
                   JArr [JObj [(lit "translatedText", JStr [])]])])])
  | _ => Rejected
  end.

(** MyMemory answers with the given text, the others are unreachable. *)
Definition mymemory_says (t : jsstring) (r : Request) : FetchResult :=
  match r with
  | MyMemoryGet _ _ =>
      json_ok (JObj [(lit "responseStatus", JNum 200);
                     (lit "responseData", JObj [(lit "translatedText", JStr t)])])
  | _ => Rejected
  end.

Definition insert_of (src dst : string) : InsertTranslation :=
  {| ins_sourceText := lit src; ins_translatedText := JStr (lit dst);
     ins_sourceLanguage := lit "auto"; ins_targetLanguage := lit "es" |}.

End Demo.

(* ===================================================================== *)
(** * Vocabulary of the further properties *)
(* ===================================================================== *)

Module Further.
Import JS Net Storage Routes Props.

(** The order between the provider of one request and that of the next. *)
Definition asked_before (a b : Request) : Prop :=
  rank (provider_of a) < rank (provider_of b).

(** What [translateText w text from to] may send, request by request. *)
Definition well_addressed (w : World) (text from to : jsstring) (r : Request)
    : Prop :=
  match r with
  | GoogleTranslate key q source target =>
      GOOGLE_TRANSLATE_API_KEY w = Some key
      /\ q = text /\ target = to
      /\ source = (if str_eqb from (lit "auto") then None else Some from)
  | MicrosoftTranslate target source key q =>
      key = or_default (AZURE_TRANSLATOR_KEY w) (lit "none")
      /\ q = text /\ target = to
      /\ source = (if str_eqb from (lit "auto") then None else Some from)
  | LingvaTranslate sourceCode target encoded =>
      encodeURIComponent w text = Some encoded
      /\ target = to /\ sourceCode = from
  | MyMemoryGet encoded langpair =>
      encodeURIComponent w text = Some encoded
      /\ langpair
         = ((if str_eqb from (lit "auto") then lit "en" else from)
            ++ lit "|" ++ to)%list
  | GoogleDetect _ _ => False
  end.

(** The priority of the codes the heuristic answers. *)
Definition code_rank (code : string) : nat :=
  if String.eqb code "zh" then 0
  else if String.eqb code "ja" then 1
  else if String.eqb code "ko" then 2
  else if String.eqb code "ru" then 3
  else if String.eqb code "ar" then 4
  else 5.

Definition first_of (a b : string) : string :=
  if Nat.leb (code_rank a) (code_rank b) then a else b.

(** [createUser] called once per element of [calls], in order. *)
Fixpoint create_users (calls : list Users.InsertUser) (s : Users.UserStorage)
    : list Users.User * Users.UserStorage :=
  match calls with
  | [] => ([], s)
  | ins :: calls' =>
      let (u, s') := Users.createUser ins s in
      let (us, s'') := create_users calls' s' in
      (u :: us, s'')
  end.

(** What holds of the user half whatever was created: the users are held
    under their ids, in increasing order of id, all below the counter. *)
Definition users_inv (s : Users.UserStorage) : Prop :=
  StronglySorted (fun a b => Users.id a < Users.id b)%Z
    (map_values (Users.users s))
  /\ Forall (fun kv => fst kv = Users.id (snd kv)
                       /\ (Users.id (snd kv) < Users.currentUserId s)%Z)
       (Users.users s).

(** A text that [encodeURIComponent] accepts: no surrogate code unit
    without its partner. *)
Fixpoint well_formed (s : jsstring) : bool :=
  match s with
  | [] => true
  | c :: s' =>
      if Detector.in_range 0xD800 0xDBFF c then
        match s' with
        | d :: s'' => Detector.in_range 0xDC00 0xDFFF d && well_formed s''
        | [] => false
        end
      else negb (Detector.in_range 0xDC00 0xDFFF c) && well_formed s'
  end.

(** A world as [Demo.world] whose [encodeURIComponent] throws on a lone
    surrogate. *)
Definition strict_world (google azure : option jsstring)
    (net : Request -> FetchResult) : World :=
  {| GOOGLE_TRANSLATE_API_KEY := google;
     AZURE_TRANSLATOR_KEY := azure;
     network := net;
     toLowerCase := Demo.lower_ascii;
     encodeURIComponent := fun s => if well_formed s then Some s else None |}.

(** MyMemory answers with a translation and the status as a string. *)
Definition mymemory_string_status (r : Request) : FetchResult :=
  match r with
  | MyMemoryGet _ _ =>
      Demo.json_ok
        (JObj [(lit "responseStatus", JStr (lit "200"));
               (lit "responseData",
                JObj [(lit "translatedText", JStr (lit "Hola"))])])
  | _ => Rejected
  end.

(** Google answers both of its endpoints. *)
Definition google_answers (r : Request) : FetchResult :=
  match r with
  | GoogleTranslate _ _ _ _ =>
      Demo.json_ok
        (JObj [(lit "data",
           JObj [(lit "translations",
             JArr [JObj [(lit "translatedText", JStr (lit "Hola"))]])])])
  | GoogleDetect _ _ =>
      Demo.json_ok
        (JObj [(lit "data",
           JObj [(lit "detections",
             JArr [JArr [JObj [(lit "language", JStr (lit "fr"))]]])])])
  | _ => Rejected
  end.

(** Eleven creations in the same millisecond. *)
Definition eleven_at_once : list (InsertTranslation * Z) :=
  repeat (Demo.insert_of "one" "uno", 5%Z) 11.

Definition alice : Users.InsertUser :=
  {| Users.ins_username := lit "alice"; Users.ins_password := lit "a" |}.
Definition bob : Users.InsertUser :=
  {| Users.ins_username := lit "bob"; Users.ins_password := lit "b" |}.
Definition alice_again : Users.InsertUser :=
  {| Users.ins_username := lit "alice"; Users.ins_password := lit "c" |}.

End Further.

(* ===================================================================== *)
(** * Properties *)
(* ===================================================================== *)

Import JS Net Storage Routes Props.
Local Open Scope eff_scope.
Unset Implicit Arguments.

(** ** Strings and values *)

Lemma str_eqb_eq (a b : jsstring) : str_eqb a b = true <-> a = b.
Proof.
  revert b; induction a as [|x a IH]; intros [|y b]; simpl;
    try (split; intro H; [discriminate || reflexivity | discriminate || reflexivity]).
  rewrite andb_true_iff, N.eqb_eq, IH. split.
  - intros [-> ->]; reflexivity.
  - intros H; injection H; auto.
Qed.

Lemma str_eqb_refl (a : jsstring) : str_eqb a a = true.
Proof. apply str_eqb_eq; reflexivity. Qed.

Lemma str_eqb_neq (a b : jsstring) : str_eqb a b = false <-> a <> b.
Proof.
  rewrite <- str_eqb_eq. destruct (str_eqb a b); split; congruence.
Qed.

Lemma path_app (v : JSValue) (ps qs : list Sel) :
  path v (ps ++ qs) =
  match path v ps with
  | Return u => path u qs
  | Throw e => Throw e
  end.
Proof.
  revert v; induction ps as [|p ps IH]; intros v; simpl; [reflexivity|].
  destruct (select v p); [apply IH | reflexivity].
Qed.

(** A read that finds something was made on a truthy value. *)
Lemma select_defined_truthy (u x : JSValue) (p : Sel) :
  select u p = Return x -> x <> JUndefined -> truthy u = true.
Proof.
  destruct u as [| |b|n|[|c s]|l|fs]; destruct p; simpl;
    try discriminate; try reflexivity;
    intros H; injection H as <-; congruence.
Qed.

Lemma path_snoc_defined (v x : JSValue) (ps : list Sel) (p : Sel) :
  path v (ps ++ [p]) = Return x -> x <> JUndefined ->
  exists u, path v ps = Return u /\ truthy u = true /\ select u p = Return x.
Proof.
  rewrite path_app. destruct (path v ps) as [u|e]; [|discriminate].
  simpl. destruct (select u p) as [x'|e] eqn:Hs; [|discriminate].
  intros H Hx; injection H as ->. exists u.
  split; [reflexivity|]. split; [|exact Hs].
  eapply select_defined_truthy; eauto.
Qed.

Lemma truthy_defined (v : JSValue) : truthy v = true -> v <> JUndefined.
Proof. intros H ->; discriminate. Qed.

(** ** Computations *)

Lemma completion_or_else_yields {A} (b : Eff (option A)) (k : Eff A) (v : A) :
  completion b = Return (Some v) ->
  completion (b ORELSE k) = Return v /\ sent (b ORELSE k) = sent b.
Proof.
  destruct b as [c s]; simpl; intros ->. unfold or_else, bind, ret; simpl.
  rewrite app_nil_r; auto.
Qed.

Lemma completion_or_else_fails {A} (b : Eff (option A)) (k : Eff A) :
  completion b = Return None ->
  completion (b ORELSE k) = completion k /\ sent (b ORELSE k) = (sent b ++ sent k)%list.
Proof.
  destruct b as [c s]; simpl; intros ->. unfold or_else, bind; simpl.
  destruct k; auto.
Qed.

Lemma bind_step_return {A B} (a : A) (k : A -> Eff B) :
  bind (step (Return a)) k = k a.
Proof. unfold bind, step. destruct (k a); reflexivity. Qed.

Lemma try_catch_completes {A} (b : Eff (option A)) :
  exists r, completion (try_catch b) = Return r.
Proof.
  destruct b as [[r|e] s]; simpl; eauto.
Qed.

Lemma sent_try_catch {A} (b : Eff (option A)) : sent (try_catch b) = sent b.
Proof. destruct b as [[r|e] s]; reflexivity. Qed.

Lemma silent_ret {A} (a : A) : silent (ret a).
Proof. reflexivity. Qed.

Lemma silent_step {A} (c : Completion A) : silent (step c).
Proof. reflexivity. Qed.

Lemma silent_json (r : Response) : silent (json r).
Proof. reflexivity. Qed.

Lemma silent_bind {A B} (m : Eff A) (k : A -> Eff B) :
  silent m -> (forall a, silent (k a)) -> silent (bind m k).
Proof.
  unfold silent. destruct m as [[a|e] s]; simpl; intros ->; [|reflexivity].
  intros H. specialize (H a). destruct (k a); simpl in *; assumption.
Qed.

Lemma silent_if {A} (c : bool) (m1 m2 : Eff A) :
  silent m1 -> silent m2 -> silent (if c then m1 else m2).
Proof. destruct c; auto. Qed.

Ltac silence :=
  repeat first
    [ apply silent_ret | apply silent_step | apply silent_json
    | apply silent_if | apply silent_bind; [|intros ?] ].

Lemma sent_fetch_then {A} (w : World) (req : Request) (k : Response -> Eff A) :
  (forall r, silent (k r)) -> sent (bind (fetch w req) k) = [req].
Proof.
  intros H. unfold fetch, bind. destruct (network w req) as [|r]; [reflexivity|].
  specialize (H r). destruct (k r); simpl in *. rewrite H; reflexivity.
Qed.

(** ** What each attempt sends *)

Lemma sent_google_block (w : World) (key text from to : jsstring) :
  sent (google_block w key text from to) = [google_request key text from to].
Proof. unfold google_block. apply sent_fetch_then. intros r. silence. Qed.

Lemma sent_google_attempt (w : World) (text from to : jsstring) :
  sent (google_attempt w text from to) =
  match usable_key (GOOGLE_TRANSLATE_API_KEY w) with
  | Some key => [google_request key text from to]
  | None => []
  end.
Proof.
  unfold google_attempt. destruct (usable_key _); [|reflexivity].
  rewrite sent_try_catch. apply sent_google_block.
Qed.

Lemma sent_microsoft_attempt (w : World) (text from to : jsstring) :
  sent (microsoft_attempt w text from to) = [microsoft_request w text from to].
Proof.
  unfold microsoft_attempt, microsoft_block. rewrite sent_try_catch.
  apply sent_fetch_then. intros r. silence.
Qed.

Lemma sent_lingva_attempt (w : World) (text from to : jsstring) :
  sent (lingva_attempt w text from to) =
  match encodeURIComponent w text with
  | Some enc => [lingva_request enc from to]
  | None => []
  end.
Proof.
  unfold lingva_attempt, lingva_block, encoded_text. rewrite sent_try_catch.
  destruct (encodeURIComponent w text) as [enc|]; [|reflexivity].
  rewrite bind_step_return.
  apply sent_fetch_then. intros r. silence.
Qed.

Lemma sent_mymemory_attempt (w : World) (text from to : jsstring) :
  sent (mymemory_attempt w text from to) =
  match encodeURIComponent w text with
  | Some enc => [mymemory_request enc from to]
  | None => []
  end.
Proof.
  unfold mymemory_attempt, mymemory_block, encoded_text. rewrite sent_try_catch.
  destruct (encodeURIComponent w text) as [enc|]; [|reflexivity].
  rewrite bind_step_return.
  apply sent_fetch_then. intros r. silence.
Qed.

(** ** The attempts never throw *)

Lemma google_attempt_completes (w : World) (text from to : jsstring) :
  exists r, completion (google_attempt w text from to) = Return r.
Proof.
  unfold google_attempt. destruct (usable_key _).
  - apply try_catch_completes.
  - exists None; reflexivity.
Qed.

(** ** The shape of a run of [translateText] *)

Lemma or_else_yields {A} (b : Eff (option A)) (k : Eff A) (v : A) :
  completion b = Return (Some v) -> (b ORELSE k) = (Return v, sent b).
Proof.
  intros H. destruct (completion_or_else_yields b k v H) as [Hc Hs].
  destruct (b ORELSE k); simpl in *; congruence.
Qed.

Lemma or_else_fails {A} (b : Eff (option A)) (k : Eff A) :
  completion b = Return None ->
  (b ORELSE k) = (completion k, (sent b ++ sent k)%list).
Proof.
  intros H. destruct (completion_or_else_fails b k H) as [Hc Hs].
  destruct (b ORELSE k); simpl in *; congruence.
Qed.

Lemma translateText_run (w : World) (text from to : jsstring) :
  Run w text from to (translateText w text from to).
Proof.
  unfold translateText.
  destruct (google_attempt_completes w text from to) as [[v|] Hg].
  { rewrite (or_else_yields _ _ _ Hg). constructor; exact Hg. }
  rewrite (or_else_fails _ _ Hg).
  destruct (try_catch_completes (microsoft_block w text from to)) as [[v|] Hm];
    fold (microsoft_attempt w text from to) in Hm.
  { rewrite (or_else_yields _ _ _ Hm); simpl. constructor 2; assumption. }
  rewrite (or_else_fails _ _ Hm); simpl.
  destruct (try_catch_completes (lingva_block w text from to)) as [[v|] Hl];
    fold (lingva_attempt w text from to) in Hl.
  { rewrite (or_else_yields _ _ _ Hl); simpl. constructor 3; assumption. }
  rewrite (or_else_fails _ _ Hl); simpl.
  destruct (try_catch_completes (mymemory_block w text from to)) as [[v|] Hy];
    fold (mymemory_attempt w text from to) in Hy.
  { rewrite (or_else_yields _ _ _ Hy); simpl. constructor 4; assumption. }
  rewrite (or_else_fails _ _ Hy); simpl. rewrite app_nil_r.
  constructor 5; assumption.
Qed.

(** The run is decided by the attempts. *)
Lemma translateText_exhausted (w : World) (text from to : jsstring) :
  fails (google_attempt w text from to) ->
  fails (microsoft_attempt w text from to) ->
  fails (lingva_attempt w text from to) ->
  fails (mymemory_attempt w text from to) ->
  completion (translateText w text from to)
  = Throw (Error "All translation services failed").
Proof.
  intros Hg Hm Hl Hy. unfold translateText.
  rewrite (or_else_fails _ _ Hg); simpl.
  rewrite (or_else_fails _ _ Hm); simpl.
  rewrite (or_else_fails _ _ Hl); simpl.
  rewrite (or_else_fails _ _ Hy); reflexivity.
Qed.

Lemma translateText_google (w : World) (text from to : jsstring) (v : JSValue) :
  yields (google_attempt w text from to) v ->
  translateText w text from to = (Return v, sent (google_attempt w text from to)).
Proof. intros Hg. unfold translateText. apply or_else_yields, Hg. Qed.

Lemma translateText_microsoft (w : World) (text from to : jsstring) (v : JSValue) :
  fails (google_attempt w text from to) ->
  yields (microsoft_attempt w text from to) v ->
  translateText w text from to
  = (Return v, (sent (google_attempt w text from to)
                ++ sent (microsoft_attempt w text from to))%list).
Proof.
  intros Hg Hm. unfold translateText.
  rewrite (or_else_fails _ _ Hg), (or_else_yields _ _ _ Hm); reflexivity.
Qed.

Lemma translateText_lingva (w : World) (text from to : jsstring) (v : JSValue) :
  fails (google_attempt w text from to) ->
  fails (microsoft_attempt w text from to) ->
  yields (lingva_attempt w text from to) v ->
  translateText w text from to
  = (Return v, (sent (google_attempt w text from to)
                ++ sent (microsoft_attempt w text from to)
                ++ sent (lingva_attempt w text from to))%list).
Proof.
  intros Hg Hm Hl. unfold translateText.
  rewrite (or_else_fails _ _ Hg), (or_else_fails _ _ Hm), (or_else_yields _ _ _ Hl).
  reflexivity.
Qed.

Lemma translateText_mymemory (w : World) (text from to : jsstring) (v : JSValue) :
  fails (google_attempt w text from to) ->
  fails (microsoft_attempt w text from to) ->
  fails (lingva_attempt w text from to) ->
  yields (mymemory_attempt w text from to) v ->
  translateText w text from to
  = (Return v, (sent (google_attempt w text from to)
                ++ sent (microsoft_attempt w text from to)
                ++ sent (lingva_attempt w text from to)
                ++ sent (mymemory_attempt w text from to))%list).
Proof.
  intros Hg Hm Hl Hy. unfold translateText.
  rewrite (or_else_fails _ _ Hg), (or_else_fails _ _ Hm), (or_else_fails _ _ Hl),
    (or_else_yields _ _ _ Hy).
  reflexivity.
Qed.

(** ** What an attempt makes of an answer *)

Lemma fetch_fulfilled {A} (w : World) (req : Request) (r : Response)
    (k : Response -> Eff A) :
  network w req = Fulfilled r ->
  completion (bind (fetch w req) k) = completion (k r).
Proof.
  intros H. unfold bind, fetch. rewrite H. destruct (k r); reflexivity.
Qed.

Lemma completion_try_catch {A} (b : Eff (option A)) :
  completion (try_catch b) =
  match completion b with
  | Return r => Return r
  | Throw _ => Return None
  end.
Proof. destruct b as [[r|e] s]; reflexivity. Qed.

(** An unanswered request makes the attempt around it fail. *)
Ltac fall_through H :=
  let r := fresh "r" in
  let Hok := fresh "Hok" in
  let Hbody := fresh "Hbody" in
  destruct H as [H | [r [H [Hok | Hbody]]]]; rewrite completion_try_catch;
  [ unfold bind, fetch; rewrite H; reflexivity
  | rewrite (fetch_fulfilled _ _ _ _ H), Hok; reflexivity
  | rewrite (fetch_fulfilled _ _ _ _ H); destruct (ok r); [|reflexivity];
    unfold json; rewrite Hbody; reflexivity ].

Lemma google_unanswered (w : World) (text from to : jsstring) :
  (forall key, usable_key (GOOGLE_TRANSLATE_API_KEY w) = Some key ->
               unanswered w (google_request key text from to)) ->
  fails (google_attempt w text from to).
Proof.
  intros H. unfold fails, google_attempt.
  destruct (usable_key _) as [key|]; [|reflexivity].
  specialize (H key eq_refl). unfold google_block. fall_through H.
Qed.

Lemma microsoft_unanswered (w : World) (text from to : jsstring) :
  unanswered w (microsoft_request w text from to) ->
  fails (microsoft_attempt w text from to).
Proof.
  intros H. unfold fails, microsoft_attempt, microsoft_block. fall_through H.
Qed.

Lemma lingva_unanswered (w : World) (text from to : jsstring) :
  (forall enc, encodeURIComponent w text = Some enc ->
               unanswered w (lingva_request enc from to)) ->
  fails (lingva_attempt w text from to).
Proof.
  intros H. unfold fails, lingva_attempt, lingva_block, encoded_text.
  destruct (encodeURIComponent w text) as [enc|]; [|reflexivity].
  rewrite bind_step_return. specialize (H enc eq_refl). fall_through H.
Qed.

Lemma mymemory_unanswered (w : World) (text from to : jsstring) :
  (forall enc, encodeURIComponent w text = Some enc ->
               unanswered w (mymemory_request enc from to)) ->
  fails (mymemory_attempt w text from to).
Proof.
  intros H. unfold fails, mymemory_attempt, mymemory_block, encoded_text.
  destruct (encodeURIComponent w text) as [enc|]; [|reflexivity].
  rewrite bind_step_return. specialize (H enc eq_refl). fall_through H.
Qed.

Lemma answered (w : World) (req : Request) (data : JSValue)
    {A} (k : JSValue -> Eff (option A)) :
  network w req = Fulfilled {| ok := true; body := Some data |} ->
  completion (bind (fetch w req)
                (fun response => if ok response
                                 then bind (json response) k
                                 else ret None))
  = completion (k data).
Proof.
  intros Hnet. rewrite (fetch_fulfilled _ _ _ _ Hnet). simpl.
  destruct (k data); reflexivity.
Qed.

(** Two readings of the same answer read the same body. *)
Lemma answers_same_body (w : World) (req : Request) (ps qs : list Sel)
    (u v : JSValue) :
  answers w req ps u -> answers w req qs v ->
  exists data,
    network w req = Fulfilled {| ok := true; body := Some data |}
    /\ path data ps = Return u /\ path data qs = Return v.
Proof.
  intros [d1 [H1 P1]] [d2 [H2 P2]]. rewrite H1 in H2.
  injection H2 as <-. eauto.
Qed.

Lemma google_answer (w : World) (key text from to : jsstring) (v : JSValue) :
  usable_key (GOOGLE_TRANSLATE_API_KEY w) = Some key ->
  answers w (google_request key text from to)
    [Field "data"; Field "translations"; Zero; Field "translatedText"] v ->
  yields (google_attempt w text from to) v.
Proof.
  intros Hkey Hans. unfold yields, google_attempt. rewrite Hkey.
  rewrite completion_try_catch. unfold google_block.
  destruct Hans as [data [Hnet Hpath]].
  rewrite answered with (data := data) by exact Hnet.
  rewrite Hpath, bind_step_return. reflexivity.
Qed.

(** Microsoft: the attempt returns the [text] of the first translation
    entry as soon as that entry is there, whatever [text] is. *)
Lemma microsoft_answer (w : World) (text from to : jsstring) (entry v : JSValue) :
  answers w (microsoft_request w text from to)
    [Zero; Field "translations"; Zero] entry ->
  truthy entry = true ->
  select entry (Field "text") = Return v ->
  yields (microsoft_attempt w text from to) v.
Proof.
  intros Hans Htruthy Hsel. unfold yields, microsoft_attempt.
  rewrite completion_try_catch. unfold microsoft_block.
  destruct Hans as [data [Hnet Hpath]].
  rewrite answered with (data := data) by exact Hnet.
  assert (Hfull : path data [Zero; Field "translations"; Zero; Field "text"] = Return v).
  { change [Zero; Field "translations"; Zero; Field "text"]
      with ([Zero; Field "translations"; Zero] ++ [Field "text"])%list.
    rewrite path_app, Hpath. simpl. rewrite Hsel. reflexivity. }
  change [Zero; Field "translations"; Zero]
    with ([Zero; Field "translations"] ++ [Zero])%list in Hpath.
  destruct (path_snoc_defined _ _ _ _ Hpath (truthy_defined _ Htruthy))
    as [ts [Hts [Tts _]]].
  change [Zero; Field "translations"]
    with ([Zero] ++ [Field "translations"])%list in Hts.
  destruct (path_snoc_defined _ _ _ _ Hts (truthy_defined _ Tts))
    as [d0 [Hd0 [Td0 _]]].
  change [Zero] with ([] ++ [Zero])%list in Hd0.
  destruct (path_snoc_defined _ _ _ _ Hd0 (truthy_defined _ Td0))
    as [d [Hd [Td _]]].
  simpl in Hd. injection Hd as <-.
  simpl app in *.
  rewrite Hd0, Hts, Hpath, Hfull. unfold and_also. rewrite Td, Td0, Tts.
  rewrite bind_step_return, Htruthy, bind_step_return. reflexivity.
Qed.

Lemma select_falsy (u x : JSValue) (p : Sel) :
  select u p = Return x -> truthy u = false -> x = JUndefined.
Proof.
  destruct u as [| |b|n|[|c s]|l|fs]; destruct p; simpl;
    try discriminate; intros H; injection H as <-; reflexivity.
Qed.

Lemma lingva_answer (w : World) (text from to enc : jsstring) (v : JSValue) :
  encodeURIComponent w text = Some enc ->
  answers w (lingva_request enc from to) [Field "translation"] v ->
  completion (lingva_attempt w text from to)
  = Return (if truthy v then Some v else None).
Proof.
  intros Henc Hans. unfold lingva_attempt.
  rewrite completion_try_catch. unfold lingva_block, encoded_text.
  rewrite Henc, bind_step_return.
  destruct Hans as [data [Hnet Hpath]].
  rewrite answered with (data := data) by exact Hnet.
  rewrite Hpath. unfold and_also.
  destruct (truthy data) eqn:Td.
  - rewrite bind_step_return.
    destruct (truthy v); [rewrite bind_step_return|]; reflexivity.
  - rewrite bind_step_return, Td.
    simpl in Hpath. destruct (select data (Field "translation")) as [x|] eqn:Hs;
      [|discriminate].
    injection Hpath as <-. rewrite (select_falsy _ _ _ Hs Td). reflexivity.
Qed.

Lemma mymemory_answer (w : World) (text from to enc t : jsstring) :
  encodeURIComponent w text = Some enc ->
  answers w (mymemory_request enc from to) [Field "responseStatus"] (JNum 200) ->
  answers w (mymemory_request enc from to)
    [Field "responseData"; Field "translatedText"] (JStr t) ->
  t <> [] ->
  completion (mymemory_attempt w text from to)
  = Return (if str_eqb (toLowerCase w t) (toLowerCase w text)
            then None else Some (JStr t)).
Proof.
  intros Henc Hstatus Htext Ht. unfold mymemory_attempt.
  rewrite completion_try_catch. unfold mymemory_block, encoded_text.
  rewrite Henc, bind_step_return.
  destruct (answers_same_body _ _ _ _ _ _ Hstatus Htext) as [data [Hnet [Hs Hp]]].
  rewrite answered with (data := data) by exact Hnet.
  assert (Ht' : JStr t <> JUndefined) by discriminate.
  change [Field "responseData"; Field "translatedText"]
    with ([Field "responseData"] ++ [Field "translatedText"])%list in Hp.
  destruct (path_snoc_defined _ _ _ _ Hp Ht') as [rd [Hrd [Trd _]]].
  simpl app in Hp.
  rewrite Hs, bind_step_return, Hrd, Hp. unfold and_also; simpl truthy.
  cbv iota. rewrite Trd, bind_step_return.
  destruct t as [|c t]; [congruence|]. simpl truthy. cbv iota.
  rewrite bind_step_return. simpl call_toLowerCase. rewrite bind_step_return.
  destruct (str_eqb _ _); reflexivity.
Qed.

Lemma completion_bind_step {A B} (c : Completion A) (k : A -> Eff B) :
  completion (bind (step c) k) =
  match c with
  | Return a => completion (k a)
  | Throw e => Throw e
  end.
Proof. destruct c as [a|e]; [rewrite bind_step_return|]; reflexivity. Qed.

Lemma completion_fetch_bind {A} (w : World) (req : Request) (k : Response -> Eff A) :
  completion (bind (fetch w req) k) =
  match network w req with
  | Rejected => Throw FetchError
  | Fulfilled r => completion (k r)
  end.
Proof.
  unfold bind, fetch. destruct (network w req) as [|r]; [reflexivity|].
  destruct (k r); reflexivity.
Qed.

Lemma and_also_truthy (a b : Completion JSValue) (g : JSValue) :
  and_also a b = Return g -> truthy g = true ->
  b = Return g /\ exists u, a = Return u /\ truthy u = true.
Proof.
  unfold and_also. destruct a as [u|e]; [|discriminate].
  destruct (truthy u) eqn:Tu.
  - intros -> _. split; [reflexivity|]. exists u; auto.
  - intros H; injection H as <-. congruence.
Qed.

(** X8. What MyMemory makes the resolver return is a non-empty string that
    differs from the input beyond case. *)
Lemma mymemory_yields_checked (w : World) (text from to : jsstring) (v : JSValue) :
  yields (mymemory_attempt w text from to) v ->
  exists t, v = JStr t /\ t <> [] /\ toLowerCase w t <> toLowerCase w text.
Proof.
  unfold yields, mymemory_attempt. rewrite completion_try_catch.
  unfold mymemory_block, encoded_text.
  rewrite completion_bind_step.
  destruct (encodeURIComponent w text) as [enc|]; [|discriminate].
  rewrite completion_fetch_bind.
  destruct (network w (mymemory_request enc from to)) as [|[o b]];
    [discriminate|].
  cbn [ok]. destruct o; [|discriminate].
  unfold json. cbn [body]. rewrite completion_bind_step.
  destruct b as [data|]; [|discriminate].
  rewrite completion_bind_step.
  destruct (path data [Field "responseStatus"]) as [st|]; [|discriminate].
  rewrite completion_bind_step.
  destruct (and_also _ _) as [g|] eqn:G; [|discriminate].
  destruct (truthy g) eqn:Tg; [|discriminate].
  apply and_also_truthy in G; [|exact Tg]. destruct G as [Hp _].
  rewrite Hp, bind_step_return, completion_bind_step.
  destruct g as [| |b|n|t|l|fs]; cbn [call_toLowerCase]; try discriminate.
  destruct (str_eqb (toLowerCase w t) (toLowerCase w text)) eqn:Q;
    cbn [negb]; [discriminate|].
  intros H. injection H as <-. exists t. repeat split.
  - destruct t; discriminate.
  - apply str_eqb_neq, Q.
Qed.

(** X9. What Lingva makes the resolver return is truthy. *)
Lemma lingva_yields_checked (w : World) (text from to : jsstring) (v : JSValue) :
  yields (lingva_attempt w text from to) v -> truthy v = true.
Proof.
  unfold yields, lingva_attempt. rewrite completion_try_catch.
  unfold lingva_block, encoded_text.
  rewrite completion_bind_step.
  destruct (encodeURIComponent w text) as [enc|]; [|discriminate].
  rewrite completion_fetch_bind.
  destruct (network w (lingva_request enc from to)) as [|[o b]];
    [discriminate|].
  cbn [ok]. destruct o; [|discriminate].
  unfold json. cbn [body]. rewrite completion_bind_step.
  destruct b as [data|]; [|discriminate].
  rewrite completion_bind_step.
  destruct (and_also _ _) as [g|] eqn:G; [|discriminate].
  destruct (truthy g) eqn:Tg; [|discriminate].
  apply and_also_truthy in G; [|exact Tg]. destruct G as [Hp _].
  rewrite Hp, bind_step_return. intros H; injection H as <-. exact Tg.
Qed.

(** *** A body without the translation *)

Lemma select_truthy (u : JSValue) (p : Sel) :
  truthy u = true -> exists x, select u p = Return x.
Proof.
  destruct u as [| |b|n|[|c s]|l|fs]; destruct p; simpl;
    try discriminate; eauto.
Qed.

Lemma and_also_stop (g : JSValue) (b : Completion JSValue) :
  truthy g = false -> and_also (Return g) b = Return g.
Proof. unfold and_also. intros ->. reflexivity. Qed.

Lemma and_also_go (u : JSValue) (b : Completion JSValue) :
  truthy u = true -> and_also (Return u) b = b.
Proof. unfold and_also. intros ->. reflexivity. Qed.

(** Google: a read on the way to [translatedText] throws. *)
Lemma google_unreadable (w : World) (key text from to : jsstring)
    (data : JSValue) (e : JSError) :
  usable_key (GOOGLE_TRANSLATE_API_KEY w) = Some key ->
  network w (google_request key text from to)
  = Fulfilled {| ok := true; body := Some data |} ->
  path data [Field "data"; Field "translations"; Zero; Field "translatedText"]
  = Throw e ->
  fails (google_attempt w text from to).
Proof.
  intros Hkey Hnet Hpath. unfold fails, google_attempt. rewrite Hkey.
  rewrite completion_try_catch. unfold google_block.
  rewrite answered with (data := data) by exact Hnet.
  rewrite completion_bind_step, Hpath. reflexivity.
Qed.

(** Microsoft: no first translation entry. *)
Lemma microsoft_lacks (w : World) (text from to : jsstring) :
  lacks w (microsoft_request w text from to) [Zero; Field "translations"; Zero] ->
  fails (microsoft_attempt w text from to).
Proof.
  intros [data [Hnet Hnone]]. unfold fails, microsoft_attempt.
  rewrite completion_try_catch. unfold microsoft_block.
  rewrite answered with (data := data) by exact Hnet.
  rewrite completion_bind_step.
  assert (G : exists g,
             and_also
               (and_also (and_also (Return data) (path data [Zero]))
                         (path data [Zero; Field "translations"]))
               (path data [Zero; Field "translations"; Zero]) = Return g
             /\ truthy g = false).
  { destruct (truthy data) eqn:Td.
    2:{ exists data. rewrite !and_also_stop by exact Td. auto. }
    rewrite (and_also_go data _ Td).
    destruct (select_truthy data Zero Td) as [d0 Hd0].
    revert Hnone. cbn [path]. rewrite Hd0. intros Hnone.
    destruct (truthy d0) eqn:Td0.
    2:{ exists d0. rewrite !and_also_stop by exact Td0. auto. }
    rewrite (and_also_go d0 _ Td0).
    destruct (select_truthy d0 (Field "translations") Td0) as [ts Hts].
    revert Hnone. rewrite Hts. intros Hnone.
    destruct (truthy ts) eqn:Tts.
    2:{ exists ts. rewrite !and_also_stop by exact Tts. auto. }
    rewrite (and_also_go ts _ Tts).
    destruct (select_truthy ts Zero Tts) as [entry He].
    revert Hnone. rewrite He. intros Hnone.
    exists entry. split; [reflexivity|]. apply Hnone. reflexivity. }
  destruct G as [g [-> Tg]]. rewrite Tg. reflexivity.
Qed.

(** Lingva: no [translation]. *)
Lemma lingva_lacks (w : World) (text from to : jsstring) :
  (forall enc, encodeURIComponent w text = Some enc ->
               lacks w (lingva_request enc from to) [Field "translation"]) ->
  fails (lingva_attempt w text from to).
Proof.
  intros H. unfold fails, lingva_attempt. rewrite completion_try_catch.
  unfold lingva_block, encoded_text.
  destruct (encodeURIComponent w text) as [enc|] eqn:Henc; [|reflexivity].
  rewrite bind_step_return.
  destruct (H enc eq_refl) as [data [Hnet Hnone]].
  rewrite answered with (data := data) by exact Hnet.
  rewrite completion_bind_step.
  assert (G : exists g,
             and_also (Return data) (path data [Field "translation"]) = Return g
             /\ truthy g = false).
  { destruct (truthy data) eqn:Td.
    2:{ exists data. rewrite and_also_stop by exact Td. auto. }
    rewrite (and_also_go data _ Td).
    destruct (select_truthy data (Field "translation") Td) as [x Hx].
    revert Hnone. cbn [path]. rewrite Hx. intros Hnone.
    exists x. split; [reflexivity|]. apply Hnone. reflexivity. }
  destruct G as [g [-> Tg]]. rewrite Tg. reflexivity.
Qed.

(** MyMemory: no [responseData.translatedText]. *)
Lemma mymemory_lacks (w : World) (text from to : jsstring) :
  (forall enc, encodeURIComponent w text = Some enc ->
               lacks w (mymemory_request enc from to)
                 [Field "responseData"; Field "translatedText"]) ->
  fails (mymemory_attempt w text from to).
Proof.
  intros H. unfold fails, mymemory_attempt. rewrite completion_try_catch.
  unfold mymemory_block, encoded_text.
  destruct (encodeURIComponent w text) as [enc|] eqn:Henc; [|reflexivity].
  rewrite bind_step_return.
  destruct (H enc eq_refl) as [data [Hnet Hnone]].
  rewrite answered with (data := data) by exact Hnet.
  rewrite completion_bind_step.
  destruct (path data [Field "responseStatus"]) as [st|e] eqn:Hst; [|reflexivity].
  rewrite completion_bind_step.
  assert (G : exists g,
             and_also
               (and_also (Return (JBool (strict_eq_num st 200)))
                         (path data [Field "responseData"]))
               (path data [Field "responseData"; Field "translatedText"])
             = Return g /\ truthy g = false).
  { destruct (strict_eq_num st 200).
    2:{ exists (JBool false). rewrite !and_also_stop by reflexivity. auto. }
    rewrite (and_also_go (JBool true) _ eq_refl).
    assert (Hrd : exists rd, select data (Field "responseData") = Return rd).
    { destruct data as [| |b|n|[|c s]|l|fs]; simpl in Hst;
        try discriminate Hst; simpl; eauto. }
    destruct Hrd as [rd Hrd]. revert Hnone. cbn [path]. rewrite Hrd.
    intros Hnone. destruct (truthy rd) eqn:Trd.
    2:{ exists rd. rewrite !and_also_stop by exact Trd. auto. }
    rewrite (and_also_go rd _ Trd).
    destruct (select_truthy rd (Field "translatedText") Trd) as [x Hx].
    revert Hnone. rewrite Hx. intros Hnone.
    exists x. split; [reflexivity|]. apply Hnone. reflexivity. }
  destruct G as [g [-> Tg]]. rewrite Tg. reflexivity.
Qed.

Lemma yields_not_fails (a : Eff (option JSValue)) (v : JSValue) :
  yields a v -> fails a -> False.
Proof. unfold yields, fails. congruence. Qed.

(** ** The handler of POST /api/translate, past its check *)

Lemma post_translate_valid (w : World) (now : Z) (store : MemStorage)
    (txt dst : jsstring) (src : option jsstring) :
  txt <> [] -> dst <> [] ->
  post_translate w now {| text := Some txt; from := src; to := Some dst |} store
  = match translateText w txt (or_default src (lit "auto")) dst with
    | (Return translatedText, reqs) =>
        if to_string_returns translatedText then
          {| response := res_json (TranslateJson translatedText
                                     (or_default src (lit "auto")) dst);
             storage := snd (createTranslation
                               {| ins_sourceText := txt;
                                  ins_translatedText := translatedText;
                                  ins_sourceLanguage := or_default src (lit "auto");
                                  ins_targetLanguage := dst |} now store);
             outbound := reqs |}
        else
          {| response := res_status_json 500 (ErrorJson "Translation failed");
             storage := store; outbound := reqs |}
    | (Throw _, reqs) =>
        {| response := res_status_json 500 (ErrorJson "Translation failed");
           storage := store; outbound := reqs |}
    end.
Proof.
  intros Htxt Hdst.
  destruct txt as [|c txt]; [congruence|].
  destruct dst as [|d dst]; [congruence|].
  unfold post_translate, log_translation_result. simpl.
  destruct (translateText w (c :: txt) (or_default src (lit "auto")) (d :: dst))
    as [[v|e] reqs]; [|reflexivity].
  destruct (to_string_returns v); reflexivity.
Qed.

(** The check of the handler: a request whose text or target language is
    absent or empty goes no further. *)
Lemma post_translate_rejects (w : World) (now : Z) (body : Body) (store : MemStorage) :
  text body = None \/ text body = Some [] \/ to body = None \/ to body = Some [] ->
  post_translate w now body store
  = {| response := res_status_json 400 (ErrorJson "Missing required fields");
       storage := store; outbound := [] |}.
Proof.
  destruct body as [t f d]. intros H. unfold post_translate. simpl in *.
  destruct H as [-> | [-> | [-> | ->]]]; simpl; try reflexivity;
    destruct t as [[|c t]|]; reflexivity.
Qed.

(** A request body either fails the check or carries a text and a target
    language that are not empty. *)
Lemma body_cases (body : Body) :
  (text body = None \/ text body = Some [] \/ to body = None \/ to body = Some [])
  \/ exists txt dst,
       body = {| text := Some txt; from := from body; to := Some dst |}
       /\ txt <> [] /\ dst <> [].
Proof.
  destruct body as [[[|c t]|] f [[|c' d]|]]; simpl; auto.
  right. exists (c :: t), (c' :: d). repeat split; discriminate.
Qed.

(** ** The resolver *)

Lemma sent_attempt_of (p : Provider) (w : World) (text from to : jsstring) :
  Forall (fun r => provider_of r = p) (sent (attempt_of p w text from to)).
Proof.
  destruct p; simpl.
  - rewrite sent_google_attempt. destruct (usable_key _); repeat constructor.
  - rewrite sent_microsoft_attempt. repeat constructor.
  - rewrite sent_lingva_attempt. destruct (encodeURIComponent w text);
      repeat constructor.
  - rewrite sent_mymemory_attempt. destruct (encodeURIComponent w text);
      repeat constructor.
Qed.

(** X7. What [translateText] returns is what the first returning attempt
    yields: the attempts before it failed, and nothing is sent to a
    provider after it. *)
Lemma translateText_first_return (w : World) (text from to : jsstring) (v : JSValue) :
  completion (translateText w text from to) = Return v ->
  exists p,
    yields (attempt_of p w text from to) v
    /\ (forall q, rank q < rank p -> fails (attempt_of q w text from to))
    /\ Forall (fun r => rank (provider_of r) <= rank p)
         (sent (translateText w text from to)).
Proof.
  intros Hret.
  pose proof (sent_attempt_of Google w text from to) as Sg.
  pose proof (sent_attempt_of Microsoft w text from to) as Sm.
  pose proof (sent_attempt_of Lingva w text from to) as Sl.
  pose proof (sent_attempt_of MyMemory w text from to) as Sy.
  simpl in Sg, Sm, Sl, Sy.
  assert (Hle : forall p n (l : list Request),
             rank p <= n -> Forall (fun r => provider_of r = p) l ->
             Forall (fun r => rank (provider_of r) <= n) l).
  { intros p n l Hp Hl. eapply Forall_impl; [|exact Hl].
    simpl. intros r ->. exact Hp. }
  pose proof (translateText_run w text from to) as R.
  inversion R as [u Hy E | u Hg Hy E | u Hg Hm Hy E | u Hg Hm Hl Hy E
                 | Hg Hm Hl Hy E];
    rewrite <- E in Hret; simpl in Hret; try discriminate;
    injection Hret as ->; simpl.
  - exists Google. split; [exact Hy|]. split.
    + intros [] Hq; simpl in Hq; lia.
    + apply (Hle Google); [simpl; lia | exact Sg].
  - exists Microsoft. split; [exact Hy|]. split.
    + intros [] Hq; simpl in Hq; try lia; assumption.
    + apply Forall_app; split;
        [apply (Hle Google) | apply (Hle Microsoft)]; simpl; auto.
  - exists Lingva. split; [exact Hy|]. split.
    + intros [] Hq; simpl in Hq; try lia; assumption.
    + repeat (apply Forall_app; split);
        [apply (Hle Google) | apply (Hle Microsoft) | apply (Hle Lingva)];
        simpl; auto.
  - exists MyMemory. split; [exact Hy|]. split.
    + intros [] Hq; simpl in Hq; try lia; assumption.
    + repeat (apply Forall_app; split);
        [apply (Hle Google) | apply (Hle Microsoft) | apply (Hle Lingva)
        | apply (Hle MyMemory)];
        simpl; auto.
Qed.

(** C1. [translateText] returns what the first returning attempt read at
    the translation field, unchecked for the two keyed providers.  Here
    Microsoft answers with a translation entry that has no [text] while
    Lingva would answer ["Hola"]: the result is [undefined] and Lingva is
    never asked.  And when Google answers with an empty [translatedText]
    the result is the empty string. *)
Theorem translateText_unchecked_keyed_result :
  translateText (Demo.world None None Demo.microsoft_no_text)
    (lit "Hello") (lit "auto") (lit "es")
  = (Return JUndefined,
     [MicrosoftTranslate (lit "es") None (lit "none") (lit "Hello")])
  /\ translateText (Demo.world (Some (lit "key")) None Demo.google_empty)
       (lit "Hello") (lit "auto") (lit "es")
     = (Return (JStr []),
        [GoogleTranslate (lit "key") (lit "Hello") None (lit "es")]).
Proof. split; reflexivity. Qed.

(** C2. Every provider fails, and the handler answers 200.  Google has a
    key and cannot be reached, Microsoft answers with a translation entry
    that has no [text], Lingva and MyMemory cannot be reached.
    [translateText] does not throw: it returns [undefined], read unchecked
    from Microsoft's answer, after two requests; the handler stores a
    record whose translation is [undefined] and answers 200 with it. *)
Theorem every_provider_failed_yet_200 :
  (forall r, provider_of r <> Microsoft ->
             network (Demo.world (Some (lit "key")) None
                        Demo.microsoft_no_text_alone) r
             = Rejected)
  /\ (exists data,
        network (Demo.world (Some (lit "key")) None Demo.microsoft_no_text_alone)
          (MicrosoftTranslate (lit "es") None (lit "none") (lit "Hello"))
        = Fulfilled {| ok := true; body := Some data |}
        /\ path data [Zero; Field "translations"; Zero; Field "text"]
           = Return JUndefined)
  /\ translateText (Demo.world (Some (lit "key")) None Demo.microsoft_no_text_alone)
       (lit "Hello") (lit "auto") (lit "es")
     = (Return JUndefined,
        [GoogleTranslate (lit "key") (lit "Hello") None (lit "es");
         MicrosoftTranslate (lit "es") None (lit "none") (lit "Hello")])
  /\ post_translate (Demo.world (Some (lit "key")) None Demo.microsoft_no_text_alone)
       1000
       {| text := Some (lit "Hello"); from := None; to := Some (lit "es") |}
       new_MemStorage
     = {| response :=
            {| status := 200;
               payload := TranslateJson JUndefined (lit "auto") (lit "es") |};
          storage :=
            {| translations :=
                 [(1%Z, {| id := 1; sourceText := lit "Hello";
                           translatedText := JUndefined;
                           sourceLanguage := lit "auto";
                           targetLanguage := lit "es"; createdAt := 1000 |})];
               currentTranslationId := 2 |};
          outbound :=
            [GoogleTranslate (lit "key") (lit "Hello") None (lit "es");
             MicrosoftTranslate (lit "es") None (lit "none") (lit "Hello")] |}.
Proof.
  split.
  { intros [] H; try reflexivity. exfalso. apply H. reflexivity. }
  split.
  { eexists. split; reflexivity. }
  split; reflexivity.
Qed.

(** X23. When each of the four attempts falls out of its [try] without
    returning, [translateText] throws its terminal error and the handler
    of POST /api/translate answers 500 with the generic message, stores
    nothing and returns no translation. *)
Theorem all_providers_failed_500 :
  forall (w : World) (now : Z) (store : MemStorage)
         (txt dst : jsstring) (src : option jsstring),
    txt <> [] -> dst <> [] ->
    fails (google_attempt w txt (or_default src (lit "auto")) dst) ->
    fails (microsoft_attempt w txt (or_default src (lit "auto")) dst) ->
    fails (lingva_attempt w txt (or_default src (lit "auto")) dst) ->
    fails (mymemory_attempt w txt (or_default src (lit "auto")) dst) ->
    completion (translateText w txt (or_default src (lit "auto")) dst)
    = Throw (Error "All translation services failed")
    /\ response (post_translate w now
                   {| text := Some txt; from := src; to := Some dst |} store)
       = {| status := 500; payload := ErrorJson "Translation failed" |}
    /\ storage (post_translate w now
                  {| text := Some txt; from := src; to := Some dst |} store)
       = store.
Proof.
  intros w now store txt dst src Htxt Hdst Hg Hm Hl Hy.
  pose proof (translateText_exhausted _ _ _ _ Hg Hm Hl Hy) as Hthrow.
  split; [exact Hthrow|].
  rewrite (post_translate_valid w now store txt dst src Htxt Hdst).
  destruct (translateText w txt (or_default src (lit "auto")) dst)
    as [[v|e] reqs]; simpl in Hthrow; [discriminate|].
  split; reflexivity.
Qed.

(** The key of Google is the placeholder ["demo_key"], the call to
    Microsoft errors, Lingva answers with a bad status and MyMemory without
    a translation. *)
Lemma all_providers_failed_500_each_way :
  completion (translateText
                (Demo.world (Some (lit "demo_key")) None Demo.failing_each_way)
                (lit "Hello") (lit "auto") (lit "es"))
  = Throw (Error "All translation services failed")
  /\ response (post_translate
                 (Demo.world (Some (lit "demo_key")) None Demo.failing_each_way)
                 1000
                 {| text := Some (lit "Hello"); from := None; to := Some (lit "es") |}
                 new_MemStorage)
     = {| status := 500; payload := ErrorJson "Translation failed" |}
  /\ storage (post_translate
                (Demo.world (Some (lit "demo_key")) None Demo.failing_each_way)
                1000
                {| text := Some (lit "Hello"); from := None; to := Some (lit "es") |}
                new_MemStorage)
     = new_MemStorage.
Proof.
  apply (all_providers_failed_500
           (Demo.world (Some (lit "demo_key")) None Demo.failing_each_way) 1000
           new_MemStorage (lit "Hello") (lit "es") None).
  - discriminate.
  - discriminate.
  - apply google_unanswered. intros key H; discriminate H.
  - apply microsoft_unanswered. left; reflexivity.
  - apply lingva_unanswered. intros enc _. right.
    eexists; split; [reflexivity | left; reflexivity].
  - apply mymemory_lacks. intros enc _.
    eexists; split; [reflexivity|].
    intros v Hv. injection Hv as <-. reflexivity.
Defined.

(** C3. A text [t] that MyMemory, the last provider, returns is rejected
    exactly when it equals the input up to case, and the resolver then
    fails; the same text returned by one of the three earlier providers is
    accepted without that test. *)
Theorem echo_rejected_by_last_provider_only :
  forall (w : World) (text from to t : jsstring),
    t <> [] ->
    (* the last provider *)
    (forall enc,
        fails (google_attempt w text from to) ->
        fails (microsoft_attempt w text from to) ->
        fails (lingva_attempt w text from to) ->
        encodeURIComponent w text = Some enc ->
        answers w (mymemory_request enc from to) [Field "responseStatus"] (JNum 200) ->
        answers w (mymemory_request enc from to)
          [Field "responseData"; Field "translatedText"] (JStr t) ->
        (fails (mymemory_attempt w text from to)
         <-> toLowerCase w t = toLowerCase w text)
        /\ (toLowerCase w t = toLowerCase w text ->
            completion (translateText w text from to)
            = Throw (Error "All translation services failed"))
        /\ (toLowerCase w t <> toLowerCase w text ->
            completion (translateText w text from to) = Return (JStr t)))
    (* the three before it *)
    /\ (forall key,
           usable_key (GOOGLE_TRANSLATE_API_KEY w) = Some key ->
           answers w (google_request key text from to)
             [Field "data"; Field "translations"; Zero; Field "translatedText"]
             (JStr t) ->
           completion (translateText w text from to) = Return (JStr t))
    /\ (fails (google_attempt w text from to) ->
        answers w (microsoft_request w text from to)
          [Zero; Field "translations"; Zero; Field "text"] (JStr t) ->
        completion (translateText w text from to) = Return (JStr t))
    /\ (forall enc,
           fails (google_attempt w text from to) ->
           fails (microsoft_attempt w text from to) ->
           encodeURIComponent w text = Some enc ->
           answers w (lingva_request enc from to) [Field "translation"] (JStr t) ->
           completion (translateText w text from to) = Return (JStr t)).
Proof.
  intros w text from to t Ht. split; [|split; [|split]].
  - intros enc Hg Hm Hl Henc Hstatus Htext.
    pose proof (mymemory_answer w text from to enc t Henc Hstatus Htext Ht) as E.
    split; [split|split].
    + intros Hfail. unfold fails in Hfail. rewrite E in Hfail.
      destruct (str_eqb _ _) eqn:Q; [apply str_eqb_eq, Q | discriminate].
    + intros Heq. unfold fails. rewrite E.
      rewrite (proj2 (str_eqb_eq _ _) Heq). reflexivity.
    + intros Heq. apply translateText_exhausted; try assumption.
      unfold fails. rewrite E.
      rewrite (proj2 (str_eqb_eq _ _) Heq). reflexivity.
    + intros Hneq.
      rewrite (translateText_mymemory w text from to (JStr t)); try assumption;
        [reflexivity|].
      unfold yields. rewrite E.
      rewrite (proj2 (str_eqb_neq _ _) Hneq). reflexivity.
  - intros key Hkey Hans.
    rewrite (translateText_google w text from to (JStr t)); [reflexivity|].
    eapply google_answer; eassumption.
  - intros Hg Hans. destruct Hans as [data [Hnet Hpath]].
    change [Zero; Field "translations"; Zero; Field "text"]
      with ([Zero; Field "translations"; Zero] ++ [Field "text"])%list in Hpath.
    assert (Ht' : JStr t <> JUndefined) by discriminate.
    destruct (path_snoc_defined _ _ _ _ Hpath Ht') as [entry [He [Te Hs]]].
    rewrite (translateText_microsoft w text from to (JStr t)); [reflexivity|exact Hg|].
    apply (microsoft_answer w text from to entry (JStr t)); try assumption.
    exists data; split; assumption.
  - intros enc Hg Hm Henc Hans.
    rewrite (translateText_lingva w text from to (JStr t)); try assumption;
      [reflexivity|].
    unfold yields. rewrite (lingva_answer w text from to enc (JStr t) Henc Hans).
    destruct t; [congruence|reflexivity].
Qed.

(** MyMemory echoing ["HELLO"] for ["Hello"] is rejected and the resolver
    fails. *)
Lemma echo_rejected_by_last_provider_only_hello :
  completion (translateText (Demo.world None None (Demo.mymemory_says (lit "HELLO")))
                (lit "Hello") (lit "auto") (lit "es"))
  = Throw (Error "All translation services failed").
Proof.
  destruct (echo_rejected_by_last_provider_only
              (Demo.world None None (Demo.mymemory_says (lit "HELLO")))
              (lit "Hello") (lit "auto") (lit "es") (lit "HELLO"))
    as [Hlast _].
  - discriminate.
  - destruct (Hlast (lit "Hello")) as [_ [Hreject _]].
    + reflexivity.
    + reflexivity.
    + reflexivity.
    + reflexivity.
    + eexists; split; reflexivity.
    + eexists; split; reflexivity.
    + apply Hreject. reflexivity.
Defined.

(** C4, as the code has it.  Microsoft, the second provider, is asked
    whenever the Google attempt did not return, with or without a
    configured key: its request follows Google's (if any) and carries
    [AZURE_TRANSLATOR_KEY], or ["none"] when that is unset or empty; a
    later provider is asked only after the Microsoft attempt failed. *)
Theorem microsoft_attempted_with_or_without_key :
  forall (w : World) (text from to : jsstring),
    fails (google_attempt w text from to) ->
    exists later,
      sent (translateText w text from to)
      = (sent (google_attempt w text from to)
         ++ MicrosoftTranslate to
              (if negb (str_eqb from (lit "auto")) then Some from else None)
              (or_default (AZURE_TRANSLATOR_KEY w) (lit "none"))
              text
            :: later)%list
      /\ (truthy_str (AZURE_TRANSLATOR_KEY w) = false ->
          or_default (AZURE_TRANSLATOR_KEY w) (lit "none") = lit "none")
      /\ (later <> [] -> fails (microsoft_attempt w text from to)).
Proof.
  intros w text from to Hg.
  assert (Hnone : truthy_str (AZURE_TRANSLATOR_KEY w) = false ->
                  or_default (AZURE_TRANSLATOR_KEY w) (lit "none") = lit "none").
  { destruct (AZURE_TRANSLATOR_KEY w) as [[|c k]|]; simpl; congruence. }
  pose proof (translateText_run w text from to) as R.
  inversion R as [v Hy E | v _ Hy E | v _ Hm Hy E | v _ Hm Hl Hy E | _ Hm Hl Hy E];
    clear R.
  - destruct (yields_not_fails _ _ Hy Hg).
  - exists []. rewrite sent_microsoft_attempt. repeat split; auto.
    intros H; congruence.
  - exists (sent (lingva_attempt w text from to)).
    rewrite sent_microsoft_attempt. repeat split; auto.
  - exists (sent (lingva_attempt w text from to)
            ++ sent (mymemory_attempt w text from to))%list.
    rewrite sent_microsoft_attempt. repeat split; auto.
  - exists (sent (lingva_attempt w text from to)
            ++ sent (mymemory_attempt w text from to))%list.
    rewrite sent_microsoft_attempt. repeat split; auto.
Qed.

(** With no key at all and no service reachable, Microsoft is the first
    provider asked, with the key ["none"]. *)
Lemma microsoft_attempted_with_or_without_key_offline :
  exists later,
    sent (translateText (Demo.world None None Demo.offline)
            (lit "Hello") (lit "auto") (lit "es"))
    = MicrosoftTranslate (lit "es") None (lit "none") (lit "Hello") :: later.
Proof.
  destruct (microsoft_attempted_with_or_without_key
              (Demo.world None None Demo.offline)
              (lit "Hello") (lit "auto") (lit "es") eq_refl)
    as [later [Hsent _]].
  exists later. exact Hsent.
Defined.

(** C4 as stated fails: no credential is configured, and the trace of the
    resolver starts with a request to the secondary keyed provider. *)
Lemma microsoft_asked_without_credential :
  AZURE_TRANSLATOR_KEY (Demo.world None None Demo.offline) = None
  /\ sent (translateText (Demo.world None None Demo.offline)
             (lit "Hello") (lit "auto") (lit "es"))
     = [MicrosoftTranslate (lit "es") None (lit "none") (lit "Hello");
        LingvaTranslate (lit "auto") (lit "es") (lit "Hello");
        MyMemoryGet (lit "Hello") (lit "en|es")].
Proof. split; reflexivity. Qed.

(** C10. With the source language ["auto"], any request the resolver
    sends to MyMemory, the last provider, has the language pair
    ["en|" ++ to] (and carries the encoded text); and it does send that
    request once the three earlier attempts have failed. *)
Theorem mymemory_langpair_for_auto :
  forall (w : World) (text to : jsstring),
    (forall q langpair,
        In (MyMemoryGet q langpair) (sent (translateText w text (lit "auto") to)) ->
        langpair = (lit "en|" ++ to)%list
        /\ encodeURIComponent w text = Some q)
    /\ (forall enc,
           fails (google_attempt w text (lit "auto") to) ->
           fails (microsoft_attempt w text (lit "auto") to) ->
           fails (lingva_attempt w text (lit "auto") to) ->
           encodeURIComponent w text = Some enc ->
           In (MyMemoryGet enc (lit "en|" ++ to)%list)
              (sent (translateText w text (lit "auto") to))).
Proof.
  intros w text to.
  pose proof (translateText_run w text (lit "auto") to) as R. split.
  - intros q langpair Hin.
    assert (Hall : In (MyMemoryGet q langpair)
                     (sent (google_attempt w text (lit "auto") to)
                      ++ sent (microsoft_attempt w text (lit "auto") to)
                      ++ sent (lingva_attempt w text (lit "auto") to)
                      ++ sent (mymemory_attempt w text (lit "auto") to))%list).
    { inversion R as [v Hy E | v _ Hy E | v _ Hm Hy E | v _ Hm Hl Hy E | _ Hm Hl Hy E];
        try rewrite <- E in Hin; simpl in Hin;
        repeat rewrite in_app_iff in *; tauto. }
    clear Hin R. rewrite sent_google_attempt, sent_microsoft_attempt,
      sent_lingva_attempt, sent_mymemory_attempt in Hall.
    repeat rewrite in_app_iff in Hall.
    destruct Hall as [H | [H | [H | H]]].
    + destruct (usable_key _); simpl in H; [destruct H as [H|[]]|destruct H].
      discriminate H.
    + destruct H as [H|[]]. discriminate H.
    + destruct (encodeURIComponent w text); simpl in H;
        [destruct H as [H|[]]|destruct H].
      discriminate H.
    + destruct (encodeURIComponent w text) as [enc|]; simpl in H;
        [destruct H as [H|[]]|destruct H].
      unfold mymemory_request in H. rewrite str_eqb_refl in H.
      injection H as <- <-. split; reflexivity.
  - intros enc Hg Hm Hl Henc.
    assert (Hlast : In (MyMemoryGet enc (lit "en|" ++ to)%list)
                      (sent (mymemory_attempt w text (lit "auto") to))).
    { rewrite sent_mymemory_attempt, Henc. left.
      unfold mymemory_request. rewrite str_eqb_refl. reflexivity. }
    inversion R as [v Hy E | v _ Hy E | v _ _ Hy E | v _ _ _ Hy E | _ _ _ Hy E];
      simpl; repeat rewrite in_app_iff; try tauto;
      exfalso; eapply yields_not_fails; eassumption.
Qed.

(** With only MyMemory reachable and the source left to ["auto"], it is
    asked for ["en|es"]. *)
Lemma mymemory_langpair_for_auto_es :
  In (MyMemoryGet (lit "Hello") (lit "en|es"))
     (sent (translateText (Demo.world None None (Demo.mymemory_says (lit "Hola")))
              (lit "Hello") (lit "auto") (lit "es"))).
Proof.
  apply (proj2 (mymemory_langpair_for_auto
                  (Demo.world None None (Demo.mymemory_says (lit "Hola")))
                  (lit "Hello") (lit "es")) (lit "Hello"));
    reflexivity.
Defined.

(** ** The store *)

Lemma map_set_fresh {V} (k : Z) (v : V) (m : NumMap V) :
  Forall (fun kv => fst kv <> k) m -> map_set k v m = (m ++ [(k, v)])%list.
Proof.
  induction m as [|[k' v'] m IH]; simpl; intros H; [reflexivity|].
  inversion H as [|kv m' Hk Hm]; subst. simpl in Hk.
  destruct (Z.eqb_spec k k') as [->|_]; [congruence|].
  rewrite IH by assumption. reflexivity.
Qed.

Lemma StronglySorted_snoc {A} (R : A -> A -> Prop) (l : list A) (x : A) :
  StronglySorted R l -> Forall (fun a => R a x) l ->
  StronglySorted R (l ++ [x]).
Proof.
  induction 1 as [|a l Hl IH Ha]; simpl; intros Hx.
  - repeat constructor.
  - inversion Hx; subst. constructor; [auto|].
    apply Forall_app; split; [assumption|]. repeat constructor; assumption.
Qed.

Lemma store_inv_new : store_inv new_MemStorage.
Proof. split; constructor. Qed.

(** A creation puts the new record last and leaves the others. *)
Lemma createTranslation_appends (ins : InsertTranslation) (now : Z) (s : MemStorage) :
  store_inv s ->
  translations (snd (createTranslation ins now s))
  = (translations s
     ++ [(currentTranslationId s, fst (createTranslation ins now s))])%list.
Proof.
  intros [_ Hkeys]. simpl. apply map_set_fresh.
  eapply Forall_impl; [|exact Hkeys]. simpl. intros [k t] [Hk Hlt]; simpl in *. lia.
Qed.

Lemma store_inv_create (ins : InsertTranslation) (now : Z) (s : MemStorage) :
  store_inv s -> store_inv (snd (createTranslation ins now s)).
Proof.
  intros Hinv. pose proof (createTranslation_appends ins now s Hinv) as Happ.
  destruct Hinv as [Hsorted Hkeys]. unfold store_inv. rewrite Happ.
  split.
  - unfold map_values. rewrite map_app. simpl. apply StronglySorted_snoc.
    + exact Hsorted.
    + unfold map_values. rewrite Forall_map.
      eapply Forall_impl; [|exact Hkeys]. simpl. intros kv [_ Hlt]. exact Hlt.
  - apply Forall_app; split.
    + eapply Forall_impl; [|exact Hkeys]. simpl. intros kv [Hk Hlt]. split; [exact Hk|lia].
    + repeat constructor; simpl; lia.
Qed.

Lemma Reachable_inv (s : MemStorage) : Reachable s -> store_inv s.
Proof.
  induction 1; [apply store_inv_new | apply store_inv_create; assumption].
Qed.

Lemma create_all_cons (ins : InsertTranslation) (now : Z)
    (calls : list (InsertTranslation * Z)) (s : MemStorage) :
  create_all ((ins, now) :: calls) s
  = (fst (createTranslation ins now s)
       :: fst (create_all calls (snd (createTranslation ins now s))),
     snd (create_all calls (snd (createTranslation ins now s)))).
Proof.
  cbn [create_all]. destruct (createTranslation ins now s) as [t s'].
  cbn [fst snd]. destruct (create_all calls s'); reflexivity.
Qed.

Lemma create_all_Reachable (calls : list (InsertTranslation * Z)) (s : MemStorage) :
  Reachable s -> Reachable (snd (create_all calls s)).
Proof.
  revert s; induction calls as [|[ins now] calls IH]; intros s Hs.
  - exact Hs.
  - rewrite create_all_cons. cbn [snd]. apply IH.
    apply Reachable_create, Hs.
Qed.

(** Successive creations: the ids count up from the counter, and the
    records are stored behind those already there, as returned. *)
Lemma create_all_spec (calls : list (InsertTranslation * Z)) (s : MemStorage) :
  store_inv s ->
  map id (fst (create_all calls s))
  = map (fun i => currentTranslationId s + Z.of_nat i)%Z (seq 0 (List.length calls))
  /\ map_values (translations (snd (create_all calls s)))
     = (map_values (translations s) ++ fst (create_all calls s))%list
  /\ map (fun t => (sourceText t, translatedText t, sourceLanguage t,
                    targetLanguage t, createdAt t)) (fst (create_all calls s))
     = map (fun c => (ins_sourceText (fst c), ins_translatedText (fst c),
                      ins_sourceLanguage (fst c), ins_targetLanguage (fst c),
                      snd c)) calls
  /\ currentTranslationId (snd (create_all calls s))
     = (currentTranslationId s + Z.of_nat (List.length calls))%Z.
Proof.
  revert s; induction calls as [|[ins now] calls IH]; intros s Hinv.
  - simpl. rewrite app_nil_r. repeat split; auto. lia.
  - pose proof (createTranslation_appends ins now s Hinv) as Happ.
    destruct (IH _ (store_inv_create ins now s Hinv))
      as [Hids [Hvals [Hdata Hcount]]].
    rewrite create_all_cons. cbn [fst snd].
    split; [|split; [|split]].
    + cbn [List.length seq map]. f_equal.
      * simpl. lia.
      * rewrite Hids, <- seq_shift, map_map. apply map_ext. intros i.
        simpl. lia.
    + rewrite Hvals, Happ. unfold map_values. rewrite map_app. simpl.
      rewrite <- app_assoc. reflexivity.
    + cbn [map]. rewrite Hdata. reflexivity.
    + rewrite Hcount. cbn [List.length]. simpl. lia.
Qed.

Lemma StronglySorted_lt_NoDup (l : list Translation) :
  StronglySorted (fun a b => id a < id b)%Z l -> NoDup (map id l).
Proof.
  induction 1 as [|a l Hl IH Ha]; simpl; constructor; [|assumption].
  rewrite in_map_iff. intros [b [Hb Hin]].
  rewrite Forall_forall in Ha. specialize (Ha b Hin). lia.
Qed.

(** C6. [createTranslation] called N times on a fresh store returns records
    with the ids 1, 2, ..., N in that order, each holding what its call was
    given and the time of the call; the store then holds exactly these
    records, in that order, under pairwise different ids; and one more
    call (it always returns) puts its record behind them under the next
    id and leaves them as they are. *)
Theorem createTranslation_sequential_ids :
  forall calls : list (InsertTranslation * Z),
    map id (fst (create_all calls new_MemStorage))
    = map Z.of_nat (seq 1 (List.length calls))
    /\ map (fun t => (sourceText t, translatedText t, sourceLanguage t,
                      targetLanguage t, createdAt t))
         (fst (create_all calls new_MemStorage))
       = map (fun c => (ins_sourceText (fst c), ins_translatedText (fst c),
                        ins_sourceLanguage (fst c), ins_targetLanguage (fst c),
                        snd c)) calls
    /\ map_values (translations (snd (create_all calls new_MemStorage)))
       = fst (create_all calls new_MemStorage)
    /\ NoDup (map id (map_values
                        (translations (snd (create_all calls new_MemStorage)))))
    /\ forall ins now,
         exists t s',
           createTranslation ins now (snd (create_all calls new_MemStorage))
           = (t, s')
           /\ id t = Z.of_nat (S (List.length calls))
           /\ translations s'
              = (translations (snd (create_all calls new_MemStorage))
                 ++ [(id t, t)])%list.
Proof.
  intros calls.
  destruct (create_all_spec calls new_MemStorage store_inv_new)
    as [Hids [Hvals [Hdata Hcount]]].
  pose proof (Reachable_inv _ (create_all_Reachable calls _ Reachable_new)) as Hinv.
  split; [|split; [|split; [|split]]].
  - rewrite Hids, <- seq_shift, map_map. apply map_ext. intros i.
    change (currentTranslationId new_MemStorage) with 1%Z. lia.
  - exact Hdata.
  - exact Hvals.
  - apply StronglySorted_lt_NoDup, Hinv.
  - intros ins now.
    exists (fst (createTranslation ins now (snd (create_all calls new_MemStorage)))),
           (snd (createTranslation ins now (snd (create_all calls new_MemStorage)))).
    split; [reflexivity|].
    split.
    + change (id (fst (createTranslation ins now
                         (snd (create_all calls new_MemStorage)))))
        with (currentTranslationId (snd (create_all calls new_MemStorage))).
      rewrite Hcount. change (currentTranslationId new_MemStorage) with 1%Z. lia.
    + rewrite (createTranslation_appends ins now _ Hinv). reflexivity.
Qed.

Lemma create_all_app (calls1 calls2 : list (InsertTranslation * Z)) (s : MemStorage) :
  snd (create_all (calls1 ++ calls2) s)
  = snd (create_all calls2 (snd (create_all calls1 s))).
Proof.
  revert s; induction calls1 as [|[ins now] calls1 IH]; intros s.
  - reflexivity.
  - rewrite <- app_comm_cons, !create_all_cons. cbn [snd]. apply IH.
Qed.

(** The stores the server can be in are those a run of creations leaves. *)
Lemma Reachable_create_all (s : MemStorage) :
  Reachable s <-> exists calls, s = snd (create_all calls new_MemStorage).
Proof.
  split.
  - induction 1 as [|ins now s Hs [calls ->]].
    + exists []; reflexivity.
    + exists (calls ++ [(ins, now)])%list.
      rewrite create_all_app, create_all_cons. reflexivity.
  - intros [calls ->]. apply create_all_Reachable, Reachable_new.
Qed.

(** *** Sorting by [createdAt] *)

Lemma sort_insert_perm {A} (cmp : A -> A -> Z) (x : A) (l : list A) :
  Permutation (sort_insert cmp x l) (x :: l).
Proof.
  induction l as [|y l IH]; simpl; [reflexivity|].
  destruct (cmp x y <=? 0)%Z; [reflexivity|].
  rewrite IH. apply perm_swap.
Qed.

Lemma sort_perm {A} (cmp : A -> A -> Z) (l : list A) :
  Permutation (sort cmp l) l.
Proof.
  induction l as [|x l IH]; simpl; [reflexivity|].
  rewrite sort_insert_perm, IH. reflexivity.
Qed.

Lemma sort_insert_recent (x : Translation) (l : list Translation) :
  StronglySorted recent_before l ->
  Forall (fun y => id x < id y)%Z l ->
  StronglySorted recent_before
    (sort_insert (fun a b => createdAt b - createdAt a)%Z x l).
Proof.
  induction 1 as [|y l Hl IH Hy]; intros Hx; simpl.
  - repeat constructor.
  - inversion Hx as [|? ? Hxy Hxl]; subst.
    destruct (Z.leb_spec (createdAt y - createdAt x) 0) as [Hle|Hgt].
    + constructor; [constructor; assumption|].
      constructor.
      * unfold recent_before. lia.
      * rewrite Forall_forall in *. intros z Hz.
        specialize (Hy z Hz). specialize (Hxl z Hz).
        unfold recent_before in *. lia.
    + constructor; [apply IH; assumption|].
      eapply Permutation_Forall.
      * symmetry. apply sort_insert_perm.
      * constructor; [unfold recent_before; lia | exact Hy].
Qed.

Lemma sort_recent (l : list Translation) :
  StronglySorted (fun a b => id a < id b)%Z l ->
  StronglySorted recent_before (sort (fun a b => createdAt b - createdAt a)%Z l).
Proof.
  induction 1 as [|x l Hl IH Hx]; simpl; [constructor|].
  apply sort_insert_recent; [exact IH|].
  eapply Permutation_Forall; [symmetry; apply sort_perm | exact Hx].
Qed.

Lemma slice0_nonneg {A} (l : list A) (k : Z) :
  (0 <= k)%Z -> slice0 l k = firstn (Z.to_nat k) l.
Proof.
  intros Hk. unfold slice0.
  destruct (Z.ltb_spec k 0) as [Hneg|_]; [lia|].
  destruct (Z.le_gt_cases k (Z.of_nat (List.length l))) as [Hle|Hgt].
  - rewrite Z.min_l by assumption. reflexivity.
  - rewrite Z.min_r by lia. rewrite Nat2Z.id, firstn_all.
    symmetry. apply firstn_all2. lia.
Qed.

(** C5, as the code has it.  In a store the server can be in, and for a
    limit that is not negative (10 when omitted), [getRecentTranslations]
    returns the first [limit] of the stored records (all of them when
    there are fewer, none when the store is empty) in the order: later
    [createdAt] first, and among equal [createdAt] the record created
    first, that is the smaller id, first. *)
Theorem getRecentTranslations_order :
  forall (s : MemStorage) (limit : option Z),
    Reachable s ->
    (0 <= or_omitted limit 10)%Z ->
    exists older,
      Permutation (getRecentTranslations limit s ++ older)
                  (map_values (translations s))
      /\ StronglySorted recent_before (getRecentTranslations limit s ++ older)
      /\ List.length (getRecentTranslations limit s)
         = Nat.min (Z.to_nat (or_omitted limit 10))
                   (List.length (map_values (translations s)))
      /\ (translations s = [] -> getRecentTranslations limit s = []).
Proof.
  intros s limit Hreach Hk.
  destruct (Reachable_inv s Hreach) as [Hsorted _].
  unfold getRecentTranslations. rewrite slice0_nonneg by assumption.
  set (sorted := sort (fun a b => createdAt b - createdAt a)%Z
                      (map_values (translations s))).
  exists (skipn (Z.to_nat (or_omitted limit 10)) sorted).
  rewrite firstn_skipn. repeat split.
  - apply sort_perm.
  - apply sort_recent, Hsorted.
  - rewrite length_firstn. f_equal.
    apply Permutation_length, sort_perm.
  - intros Hempty. subst sorted. rewrite Hempty. simpl.
    apply firstn_nil.
Qed.

(** Three creations, the first two in the same millisecond, and the
    default limit. *)
Lemma getRecentTranslations_order_three :
  exists older,
    Permutation
      (getRecentTranslations None
         (snd (create_all [(Demo.insert_of "one" "uno", 5%Z);
                           (Demo.insert_of "two" "dos", 5%Z);
                           (Demo.insert_of "three" "tres", 7%Z)]
                 new_MemStorage)) ++ older)
      (map_values
         (translations
            (snd (create_all [(Demo.insert_of "one" "uno", 5%Z);
                              (Demo.insert_of "two" "dos", 5%Z);
                              (Demo.insert_of "three" "tres", 7%Z)]
                    new_MemStorage))))
    /\ map id (getRecentTranslations None
                 (snd (create_all [(Demo.insert_of "one" "uno", 5%Z);
                                   (Demo.insert_of "two" "dos", 5%Z);
                                   (Demo.insert_of "three" "tres", 7%Z)]
                         new_MemStorage)))
       = [3; 1; 2]%Z.
Proof.
  destruct (getRecentTranslations_order
              (snd (create_all [(Demo.insert_of "one" "uno", 5%Z);
                                (Demo.insert_of "two" "dos", 5%Z);
                                (Demo.insert_of "three" "tres", 7%Z)]
                      new_MemStorage))
              None)
    as [older [Hperm _]].
  - apply create_all_Reachable, Reachable_new.
  - discriminate.
  - exists older. split; [exact Hperm | reflexivity].
Defined.

(** C5 as stated fails.  Two records created in the same millisecond come
    back with the smaller id first, so the result is not ordered with ties
    towards the larger id; and a negative limit does not bound the number
    of records returned. *)
Lemma getRecentTranslations_ties_ascending :
  map id (getRecentTranslations (Some 2%Z)
            (snd (create_all [(Demo.insert_of "one" "uno", 5%Z);
                              (Demo.insert_of "two" "dos", 5%Z)]
                    new_MemStorage)))
  = [1; 2]%Z
  /\ map createdAt (getRecentTranslations (Some 2%Z)
            (snd (create_all [(Demo.insert_of "one" "uno", 5%Z);
                              (Demo.insert_of "two" "dos", 5%Z)]
                    new_MemStorage)))
     = [5; 5]%Z
  /\ ~ StronglySorted recent_before_id_desc
         (getRecentTranslations (Some 2%Z)
            (snd (create_all [(Demo.insert_of "one" "uno", 5%Z);
                              (Demo.insert_of "two" "dos", 5%Z)]
                    new_MemStorage)))
  /\ List.length (getRecentTranslations (Some (-1)%Z)
            (snd (create_all [(Demo.insert_of "one" "uno", 5%Z);
                              (Demo.insert_of "two" "dos", 5%Z)]
                    new_MemStorage)))
     = 1%nat.
Proof.
  repeat split.
  intros H. apply StronglySorted_inv in H. destruct H as [_ H].
  inversion H as [|? ? Hbad _]; subst.
  unfold recent_before_id_desc in Hbad. simpl in Hbad. lia.
Qed.

(** ** The handler of POST /api/translate *)

Lemma map_set_In {V} (k : Z) (v : V) (m : NumMap V) :
  In v (map_values (map_set k v m)).
Proof.
  induction m as [|[k' v'] m IH]; simpl; [auto|].
  destruct (k =? k')%Z; simpl; auto.
Qed.

(** Every string has a string conversion. *)
Lemma to_string_returns_string (t : jsstring) : to_string_returns (JStr t) = true.
Proof. reflexivity. Qed.

(** Past the check, whatever the resolver did, the handler answers 200 or
    500, and the store it leaves is the one it found or that store with
    one record more. *)
Lemma post_translate_cases (w : World) (now : Z) (store : MemStorage)
    (txt dst : jsstring) (src : option jsstring) :
  txt <> [] -> dst <> [] ->
  (exists v reqs,
     translateText w txt (or_default src (lit "auto")) dst = (Return v, reqs)
     /\ to_string_returns v = true
     /\ post_translate w now {| text := Some txt; from := src; to := Some dst |} store
        = {| response := res_json (TranslateJson v (or_default src (lit "auto")) dst);
             storage := snd (createTranslation
                               {| ins_sourceText := txt; ins_translatedText := v;
                                  ins_sourceLanguage := or_default src (lit "auto");
                                  ins_targetLanguage := dst |} now store);
             outbound := reqs |})
  \/ (response (post_translate w now
                  {| text := Some txt; from := src; to := Some dst |} store)
      = {| status := 500; payload := ErrorJson "Translation failed" |}
      /\ storage (post_translate w now
                    {| text := Some txt; from := src; to := Some dst |} store)
         = store).
Proof.
  intros Htxt Hdst.
  rewrite (post_translate_valid w now store txt dst src Htxt Hdst).
  destruct (translateText w txt (or_default src (lit "auto")) dst)
    as [[v|e] reqs]; [|right; split; reflexivity].
  destruct (to_string_returns v) eqn:Hv; [|right; split; reflexivity].
  left. exists v, reqs. repeat split. exact Hv.
Qed.

(** C8. When [translateText] returns [v] and the handler's log line can be
    formed from it, that is, [v] has a string conversion, as every string
    has, the handler stores one record made of the request's text, [v],
    the source language (["auto"] when the request has none) and the
    target language, and answers 200 with [v] and the same two language
    codes. *)
Theorem post_translate_success :
  forall (w : World) (now : Z) (store : MemStorage)
         (txt dst : jsstring) (src : option jsstring)
         (v : JSValue) (reqs : list Request),
    txt <> [] -> dst <> [] ->
    translateText w txt (or_default src (lit "auto")) dst = (Return v, reqs) ->
    to_string_returns v = true ->
    response (post_translate w now
                {| text := Some txt; from := src; to := Some dst |} store)
    = {| status := 200;
         payload := TranslateJson v (or_default src (lit "auto")) dst |}
    /\ storage (post_translate w now
                  {| text := Some txt; from := src; to := Some dst |} store)
       = snd (createTranslation
                {| ins_sourceText := txt; ins_translatedText := v;
                   ins_sourceLanguage := or_default src (lit "auto");
                   ins_targetLanguage := dst |} now store)
    /\ In {| id := currentTranslationId store;
             sourceText := txt; translatedText := v;
             sourceLanguage := or_default src (lit "auto");
             targetLanguage := dst; createdAt := now |}
          (map_values
             (translations
                (storage (post_translate w now
                            {| text := Some txt; from := src; to := Some dst |}
                            store))))
    /\ (src = None -> or_default src (lit "auto") = lit "auto").
Proof.
  intros w now store txt dst src v reqs Htxt Hdst Hrun Hlog.
  rewrite (post_translate_valid w now store txt dst src Htxt Hdst), Hrun, Hlog.
  cbn [response storage]. repeat split.
  - apply map_set_In.
  - intros ->. reflexivity.
Qed.

(** The request [{text: "Hello", to: "es"}] when only Lingva answers: with
    ["Hola"] the handler answers 200 and keeps a record; with an array
    holding an object that has a [toString] of its own the log line cannot
    be formed and the handler answers 500 and keeps none. *)
Lemma post_translate_success_hola :
  (response (post_translate (Demo.world None None Demo.lingva_hola) 1000
               {| text := Some (lit "Hello"); from := None; to := Some (lit "es") |}
               new_MemStorage)
   = {| status := 200;
        payload := TranslateJson (JStr (lit "Hola")) (lit "auto") (lit "es") |}
   /\ In {| id := 1; sourceText := lit "Hello";
            translatedText := JStr (lit "Hola");
            sourceLanguage := lit "auto"; targetLanguage := lit "es";
            createdAt := 1000 |}
         (map_values
            (translations
               (storage (post_translate (Demo.world None None Demo.lingva_hola) 1000
                           {| text := Some (lit "Hello"); from := None;
                              to := Some (lit "es") |}
                           new_MemStorage)))))
  /\ post_translate (Demo.world None None Demo.lingva_object) 1000
       {| text := Some (lit "Hello"); from := None; to := Some (lit "es") |}
       new_MemStorage
     = {| response := {| status := 500; payload := ErrorJson "Translation failed" |};
          storage := new_MemStorage;
          outbound := [MicrosoftTranslate (lit "es") None (lit "none") (lit "Hello");
                       LingvaTranslate (lit "auto") (lit "es") (lit "Hello")] |}.
Proof.
  split; [|reflexivity].
  pose proof (post_translate_success (Demo.world None None Demo.lingva_hola) 1000
                new_MemStorage (lit "Hello") (lit "es") None (JStr (lit "Hola"))
                [MicrosoftTranslate (lit "es") None (lit "none") (lit "Hello");
                 LingvaTranslate (lit "auto") (lit "es") (lit "Hello")]) as H.
  destruct H as [Hres [_ [Hin _]]].
  - discriminate.
  - discriminate.
  - reflexivity.
  - reflexivity.
  - split; [exact Hres | exact Hin].
Defined.

(** The record just created, when stamped later than every record of the
    store, is the first of the next GET /api/translations. *)
Lemma get_translations_after_create (ins : InsertTranslation) (now : Z)
    (store : MemStorage) :
  Reachable store ->
  Forall (fun t => createdAt t < now)%Z (map_values (translations store)) ->
  exists rest,
    payload (response (get_translations (snd (createTranslation ins now store))))
    = TranslationsJson (fst (createTranslation ins now store) :: rest).
Proof.
  intros Hreach Hold.
  unfold get_translations. cbn [response payload res_json res_status_json].
  pose proof (Reachable_inv _ (Reachable_create ins now Hreach)) as [Hsorted _].
  pose proof (createTranslation_appends ins now store (Reachable_inv _ Hreach))
    as Happ.
  set (r := fst (createTranslation ins now store)) in *.
  assert (Hnow : createdAt r = now) by reflexivity.
  unfold getRecentTranslations. rewrite slice0_nonneg by (simpl; lia).
  assert (Hvals : map_values (translations (snd (createTranslation ins now store)))
                  = (map_values (translations store) ++ [r])%list).
  { rewrite Happ. unfold map_values. rewrite map_app. reflexivity. }
  pose proof (sort_recent _ Hsorted) as Hrecent.
  pose proof (sort_perm (fun a b => createdAt b - createdAt a)%Z
                (map_values (translations (snd (createTranslation ins now store)))))
    as Hperm.
  rewrite Hvals in Hperm, Hrecent |- *.
  destruct (sort _ (map_values (translations store) ++ [r])%list) as [|h tl].
  { apply Permutation_nil in Hperm. destruct (map_values (translations store));
      discriminate Hperm. }
  assert (Hh : h = r).
  { assert (Hr : In r (h :: tl)).
    { eapply Permutation_in; [symmetry; exact Hperm|].
      apply in_or_app. right. left. reflexivity. }
    destruct Hr as [Hr|Hr]; [exact Hr|].
    assert (Hin : In h (map_values (translations store) ++ [r])%list).
    { eapply Permutation_in; [exact Hperm|]. left. reflexivity. }
    apply in_app_or in Hin. destruct Hin as [Hin|[Hin|[]]]; [|symmetry; exact Hin].
    apply StronglySorted_inv in Hrecent. destruct Hrecent as [_ Hall].
    rewrite Forall_forall in Hall, Hold.
    specialize (Hall r Hr). specialize (Hold h Hin).
    unfold recent_before in Hall. lia. }
  subst h. exists (firstn 9 tl). reflexivity.
Qed.

(** X11. After a POST /api/translate that answered 200 with the value [v]
    and the language codes [sl] and [tl], at a time later than that of every
    record of the store, the next GET /api/translations lists first the
    record of that translation: the request's text, [v], [sl] and [tl],
    under the id the counter had, stamped with the time of the call. *)
Lemma get_translations_after_post (w : World) (now : Z) (store : MemStorage)
    (body : Body) (v : JSValue) (sl tl : jsstring) :
  Reachable store ->
  response (post_translate w now body store)
  = {| status := 200; payload := TranslateJson v sl tl |} ->
  Forall (fun t => createdAt t < now)%Z (map_values (translations store)) ->
  exists txt rest,
    text body = Some txt
    /\ payload (response
                  (get_translations (storage (post_translate w now body store))))
       = TranslationsJson
           ({| id := currentTranslationId store;
               sourceText := txt; translatedText := v;
               sourceLanguage := sl; targetLanguage := tl;
               createdAt := now |} :: rest).
Proof.
  intros Hreach Hres Hold.
  destruct (body_cases body) as [Hbad | [txt [dst [Hbody [Htxt Hdst]]]]].
  { rewrite (post_translate_rejects w now body store Hbad) in Hres.
    discriminate Hres. }
  rewrite Hbody in Hres |- *. cbn [text].
  destruct (post_translate_cases w now store txt dst (from body) Htxt Hdst)
    as [[v' [reqs [_ [_ Hpost]]]] | [H500 _]].
  - rewrite Hpost in Hres |- *. cbn [response storage] in Hres |- *.
    injection Hres as Hv Hsl Htl. rewrite <- Hv, <- Hsl, <- Htl.
    destruct (get_translations_after_create
                {| ins_sourceText := txt; ins_translatedText := v';
                   ins_sourceLanguage := or_default (from body) (lit "auto");
                   ins_targetLanguage := dst |} now store Hreach Hold)
      as [rest Hrest].
    exists txt, rest. split; [reflexivity | exact Hrest].
  - rewrite H500 in Hres. discriminate Hres.
Qed.

(** C9. A request without text, with an empty text, or without (or with an
    empty) target language is answered 400 "Missing required fields";
    nothing is sent to a provider and the store is as before. *)
Theorem post_translate_missing_fields :
  forall (w : World) (now : Z) (body : Body) (store : MemStorage),
    text body = None \/ text body = Some [] \/ to body = None \/ to body = Some [] ->
    post_translate w now body store
    = {| response := {| status := 400;
                        payload := ErrorJson "Missing required fields" |};
         storage := store;
         outbound := [] |}.
Proof.
  intros w now [t f d] store H. unfold post_translate. simpl in *.
  destruct H as [-> | [-> | [-> | ->]]]; simpl; try reflexivity;
    destruct t as [[|c t]|]; reflexivity.
Qed.

(** The request [{to: "es"}]. *)
Lemma post_translate_missing_fields_no_text :
  post_translate (Demo.world None None Demo.lingva_hola) 1000
    {| text := None; from := None; to := Some (lit "es") |} new_MemStorage
  = {| response := {| status := 400;
                      payload := ErrorJson "Missing required fields" |};
       storage := new_MemStorage;
       outbound := [] |}.
Proof.
  apply (post_translate_missing_fields (Demo.world None None Demo.lingva_hola) 1000
           {| text := None; from := None; to := Some (lit "es") |} new_MemStorage).
  left. reflexivity.
Defined.

(** ** The detector *)

Lemma detectLanguage_returns (w : World) (text : jsstring) :
  exists v, completion (detectLanguage w text) = Return v.
Proof.
  unfold detectLanguage.
  destruct (usable_key (GOOGLE_TRANSLATE_API_KEY w)) as [key|].
  - destruct (try_catch_completes (google_detect_block w key text)) as [[v|] Hc].
    + exists v. rewrite (or_else_yields _ _ _ Hc). reflexivity.
    + eexists. rewrite (or_else_fails _ _ Hc). reflexivity.
  - eexists. reflexivity.
Qed.

Lemma detectLanguage_without_key (w : World) (text : jsstring) :
  usable_key (GOOGLE_TRANSLATE_API_KEY w) = None ->
  detectLanguage w text = (Return (JStr (lit (Detector.heuristic text))), []).
Proof. unfold detectLanguage. intros ->. reflexivity. Qed.

(** POST /api/detect-language answers 400 without a text and 200 with the
    detected language otherwise; it leaves the store as it is. *)
Lemma post_detect_language_answers (w : World) (body : Body) (store : MemStorage) :
  storage (post_detect_language w body store) = store
  /\ (truthy_str (text body) = false ->
      response (post_detect_language w body store)
      = {| status := 400; payload := ErrorJson "Text is required" |})
  /\ (truthy_str (text body) = true ->
      exists language,
        response (post_detect_language w body store)
        = {| status := 200; payload := DetectJson language |}).
Proof.
  unfold post_detect_language.
  destruct (truthy_str (text body)) eqn:T; simpl.
  - destruct (detectLanguage_returns w (or_default (text body) [])) as [v Hv].
    destruct (detectLanguage w (or_default (text body) [])) as [c reqs].
    simpl in Hv. subst c. simpl. repeat split; try discriminate. eauto.
  - repeat split; try discriminate.
Qed.

(** Each character class of the detector is a range of code units. *)
Lemma in_range_spec (lo hi c : N) :
  Detector.in_range lo hi c = true <-> (lo <= c <= hi)%N.
Proof.
  unfold Detector.in_range. rewrite andb_true_iff, !N.leb_le. reflexivity.
Qed.

Lemma isChinese_spec (c : N) :
  Detector.isChinese c = true <-> CJK_Unified_Ideographs c.
Proof. apply in_range_spec. Qed.

Lemma isJapanese_spec (c : N) : Detector.isJapanese c = true <-> Kana c.
Proof.
  unfold Detector.isJapanese, Kana, Hiragana, Katakana.
  rewrite orb_true_iff, !in_range_spec. reflexivity.
Qed.

Lemma isKorean_spec (c : N) : Detector.isKorean c = true <-> Hangul_Syllables c.
Proof. apply in_range_spec. Qed.

Lemma isCyrillic_spec (c : N) : Detector.isCyrillic c = true <-> Cyrillic c.
Proof. apply in_range_spec. Qed.

Lemma isArabic_spec (c : N) : Detector.isArabic c = true <-> Arabic c.
Proof. apply in_range_spec. Qed.

Lemma isLatin_spec (c : N) : Detector.isLatin c = true <-> Basic_Latin_letter c.
Proof.
  unfold Detector.isLatin, Basic_Latin_letter.
  rewrite orb_true_iff, !in_range_spec. tauto.
Qed.

(** A test of the text against a class says whether the text has a code
    unit in the range of the class. *)
Lemma test_class_contains (cls : N -> bool) (range : N -> Prop) (text : jsstring) :
  (forall c, cls c = true <-> range c) ->
  (Detector.test_class cls text = true /\ contains range text)
  \/ (Detector.test_class cls text = false /\ ~ contains range text).
Proof.
  intros Hspec. unfold Detector.test_class, contains.
  destruct (existsb cls text) eqn:E.
  - left. split; [reflexivity|]. apply existsb_exists in E.
    destruct E as [c [Hin Hc]]. exists c. split; [exact Hin | apply Hspec, Hc].
  - right. split; [reflexivity|]. intros [c [Hin Hc]].
    assert (E' : existsb cls text = true)
      by (apply existsb_exists; exists c; split; [exact Hin | apply Hspec, Hc]).
    congruence.
Qed.

(** C7. The character classes the detector tests are the ranges CJK
    Unified Ideographs, Hiragana and Katakana, Hangul Syllables, Cyrillic,
    Arabic and the Basic Latin letters.  The heuristic answers by the first
    of these ranges, in the order zh, ja, ko, ru, ar, en, of which the text
    has a code unit, and ["en"] when it has none of them; its answer is
    always one of the six codes.  [detectLanguage] always returns, and
    without a usable Google key it returns the heuristic's answer without
    sending anything. *)
Theorem heuristic_priority_order :
  forall text : jsstring,
    (forall c : N,
       (Detector.isChinese c = true <-> (0x4E00 <= c <= 0x9FFF)%N)
       /\ (Detector.isJapanese c = true
           <-> (0x3040 <= c <= 0x309F)%N \/ (0x30A0 <= c <= 0x30FF)%N)
       /\ (Detector.isKorean c = true <-> (0xAC00 <= c <= 0xD7AF)%N)
       /\ (Detector.isCyrillic c = true <-> (0x0400 <= c <= 0x04FF)%N)
       /\ (Detector.isArabic c = true <-> (0x0600 <= c <= 0x06FF)%N)
       /\ (Detector.isLatin c = true
           <-> (0x41 <= c <= 0x5A)%N \/ (0x61 <= c <= 0x7A)%N))
    /\ (contains CJK_Unified_Ideographs text ->
        Detector.heuristic text = "zh"%string)
    /\ (~ contains CJK_Unified_Ideographs text -> contains Kana text ->
        Detector.heuristic text = "ja"%string)
    /\ (~ contains CJK_Unified_Ideographs text -> ~ contains Kana text ->
        contains Hangul_Syllables text -> Detector.heuristic text = "ko"%string)
    /\ (~ contains CJK_Unified_Ideographs text -> ~ contains Kana text ->
        ~ contains Hangul_Syllables text -> contains Cyrillic text ->
        Detector.heuristic text = "ru"%string)
    /\ (~ contains CJK_Unified_Ideographs text -> ~ contains Kana text ->
        ~ contains Hangul_Syllables text -> ~ contains Cyrillic text ->
        contains Arabic text -> Detector.heuristic text = "ar"%string)
    /\ (~ contains CJK_Unified_Ideographs text -> ~ contains Kana text ->
        ~ contains Hangul_Syllables text -> ~ contains Cyrillic text ->
        ~ contains Arabic text -> contains Basic_Latin_letter text ->
        Detector.heuristic text = "en"%string)
    /\ (~ contains CJK_Unified_Ideographs text -> ~ contains Kana text ->
        ~ contains Hangul_Syllables text -> ~ contains Cyrillic text ->
        ~ contains Arabic text -> ~ contains Basic_Latin_letter text ->
        Detector.heuristic text = "en"%string)
    /\ In (Detector.heuristic text) ["zh"; "ja"; "ko"; "ru"; "ar"; "en"]%string
    /\ (forall w, exists v, completion (detectLanguage w text) = Return v)
    /\ (forall w, usable_key (GOOGLE_TRANSLATE_API_KEY w) = None ->
                  detectLanguage w text
                  = (Return (JStr (lit (Detector.heuristic text))), [])).
Proof.
  intros text. split.
  { intros c.
    split; [apply isChinese_spec|]. split; [apply isJapanese_spec|].
    split; [apply isKorean_spec|]. split; [apply isCyrillic_spec|].
    split; [apply isArabic_spec | apply isLatin_spec]. }
  repeat match goal with |- _ /\ _ => split end.
  1-8: unfold Detector.heuristic;
    destruct (test_class_contains _ _ text isChinese_spec) as [[E1 ?]|[E1 ?]];
    destruct (test_class_contains _ _ text isJapanese_spec) as [[E2 ?]|[E2 ?]];
    destruct (test_class_contains _ _ text isKorean_spec) as [[E3 ?]|[E3 ?]];
    destruct (test_class_contains _ _ text isCyrillic_spec) as [[E4 ?]|[E4 ?]];
    destruct (test_class_contains _ _ text isArabic_spec) as [[E5 ?]|[E5 ?]];
    destruct (test_class_contains _ _ text isLatin_spec) as [[E6 ?]|[E6 ?]];
    rewrite ?E1, ?E2, ?E3, ?E4, ?E5, ?E6; simpl; tauto.
  - intros w. apply detectLanguage_returns.
  - intros w. apply detectLanguage_without_key.
Qed.

(** A text given in full has no code unit in a range, or has this one. *)
Ltac absent :=
  let c := fresh "c" in let Hin := fresh "Hin" in let Hc := fresh "Hc" in
  intros [c [Hin Hc]]; simpl in Hin;
  repeat (destruct Hin as [<-|Hin]; [cbv in Hc; intuition congruence|]);
  exact Hin.

Ltac present n :=
  exists n; split; [simpl; tauto | cbv; intuition congruence].

(** One text for each answer: a Hiragana letter followed by a CJK
    ideograph, where Chinese wins; a Katakana letter; a Hangul syllable
    after a Latin letter; a Cyrillic letter between Latin ones; an Arabic
    letter after a digit; a Latin letter; and a Hangul jamo, which is in
    none of the ranges. *)
Lemma heuristic_priority_order_mixed :
  Detector.heuristic [0x3042; 0x4E2D]%N = "zh"%string
  /\ Detector.heuristic [0x30AB]%N = "ja"%string
  /\ Detector.heuristic [0x61; 0xD55C]%N = "ko"%string
  /\ Detector.heuristic [0x61; 0x436; 0x62]%N = "ru"%string
  /\ Detector.heuristic [0x31; 0x639]%N = "ar"%string
  /\ Detector.heuristic [0x7A]%N = "en"%string
  /\ Detector.heuristic [0x1100]%N = "en"%string.
Proof.
  repeat match goal with |- _ /\ _ => split end.
  - apply (proj1 (proj2 (heuristic_priority_order [0x3042; 0x4E2D]%N))).
    present 0x4E2D%N.
  - apply (proj1 (proj2 (proj2 (heuristic_priority_order [0x30AB]%N)))).
    + absent.
    + present 0x30AB%N.
  - apply (proj1 (proj2 (proj2 (proj2
             (heuristic_priority_order [0x61; 0xD55C]%N))))).
    + absent.
    + absent.
    + present 0xD55C%N.
  - apply (proj1 (proj2 (proj2 (proj2 (proj2
             (heuristic_priority_order [0x61; 0x436; 0x62]%N)))))).
    + absent.
    + absent.
    + absent.
    + present 0x436%N.
  - apply (proj1 (proj2 (proj2 (proj2 (proj2 (proj2
             (heuristic_priority_order [0x31; 0x639]%N))))))).
    + absent.
    + absent.
    + absent.
    + absent.
    + present 0x639%N.
  - apply (proj1 (proj2 (proj2 (proj2 (proj2 (proj2 (proj2
             (heuristic_priority_order [0x7A]%N)))))))).
    + absent.
    + absent.
    + absent.
    + absent.
    + absent.
    + present 0x7A%N.
  - apply (proj1 (proj2 (proj2 (proj2 (proj2 (proj2 (proj2 (proj2
             (heuristic_priority_order [0x1100]%N))))))))).
    + absent.
    + absent.
    + absent.
    + absent.
    + absent.
    + absent.
Defined.

(* ===================================================================== *)
(** * Further properties *)
(* ===================================================================== *)

Import Further.

(** ** The resolver's requests *)

Lemma usable_key_inv (k : option jsstring) (key : jsstring) :
  usable_key k = Some key ->
  k = Some key /\ key <> [] /\ key <> lit "demo_key".
Proof.
  unfold usable_key. destruct k as [[|c k']|]; try discriminate.
  cbn [truthy_str andb].
  destruct (str_eqb (c :: k') (lit "demo_key")) eqn:Q; cbn [negb];
    [discriminate|].
  intros H; injection H as <-. repeat split.
  - discriminate.
  - apply str_eqb_neq, Q.
Qed.

(** All that a run can send: the requests of the four attempts. *)
Lemma sent_translateText_prefix (w : World) (text from to : jsstring) :
  exists unsent,
    (sent (translateText w text from to) ++ unsent)%list
    = (sent (google_attempt w text from to)
       ++ sent (microsoft_attempt w text from to)
       ++ sent (lingva_attempt w text from to)
       ++ sent (mymemory_attempt w text from to))%list.
Proof.
  pose proof (translateText_run w text from to) as R.
  inversion R as [v Hy E | v _ Hy E | v _ _ Hy E | v _ _ _ Hy E | _ _ _ Hy E];
    simpl.
  - eexists. reflexivity.
  - eexists. rewrite <- app_assoc. reflexivity.
  - eexists. rewrite <- !app_assoc. reflexivity.
  - exists []. rewrite app_nil_r. reflexivity.
  - exists []. rewrite app_nil_r. reflexivity.
Qed.

Lemma StronglySorted_prefix {A} (R : A -> A -> Prop) (l rest : list A) :
  StronglySorted R (l ++ rest) -> StronglySorted R l.
Proof.
  induction l as [|a l IH]; simpl; intros H; [constructor|].
  apply StronglySorted_inv in H. destruct H as [Hl Ha].
  constructor; [apply IH, Hl|].
  apply Forall_app in Ha. apply Ha.
Qed.

(** X1. The providers are asked in the fixed order Google, Microsoft,
    Lingva, MyMemory, each at most once: along the requests of a run the
    rank of the provider strictly increases, so there are at most four. *)
Theorem translateText_asks_in_order :
  forall (w : World) (text from to : jsstring),
    StronglySorted asked_before (sent (translateText w text from to))
    /\ List.length (sent (translateText w text from to)) <= 4.
Proof.
  intros w text from to.
  destruct (sent_translateText_prefix w text from to) as [unsent Hall].
  assert (Hfull : StronglySorted asked_before
                    (sent (translateText w text from to) ++ unsent)
                  /\ List.length (sent (translateText w text from to) ++ unsent) <= 4).
  { rewrite Hall, sent_google_attempt, sent_microsoft_attempt,
      sent_lingva_attempt, sent_mymemory_attempt.
    destruct (usable_key _); destruct (encodeURIComponent w text); simpl;
      (split; [repeat constructor; unfold asked_before; simpl; lia | lia]). }
  destruct Hfull as [Hsorted Hlen]. split.
  - eapply StronglySorted_prefix, Hsorted.
  - rewrite length_app in Hlen. lia.
Qed.

(** X2. Google is asked, for a translation or a detection, only with a key
    that is set, not empty and not ["demo_key"], and the request carries
    that key. *)
Theorem google_asked_only_with_usable_key :
  forall (w : World) (text from to : jsstring) (r : Request),
    In r (sent (translateText w text from to))
    \/ In r (sent (detectLanguage w text)) ->
    provider_of r = Google ->
    exists key,
      GOOGLE_TRANSLATE_API_KEY w = Some key
      /\ key <> [] /\ key <> lit "demo_key"
      /\ (r = google_request key text from to \/ r = GoogleDetect key text).
Proof.
  intros w text from to r Hin Hg.
  assert (Hcases : In r (sent (google_attempt w text from to))
                   \/ In r (match usable_key (GOOGLE_TRANSLATE_API_KEY w) with
                            | Some key => [GoogleDetect key text]
                            | None => []
                            end)).
  { destruct Hin as [Hin|Hin].
    - destruct (sent_translateText_prefix w text from to) as [unsent Hall].
      assert (Hin' : In r (sent (translateText w text from to) ++ unsent))
        by (apply in_or_app; left; exact Hin).
      rewrite Hall in Hin'. apply in_app_or in Hin'.
      destruct Hin' as [H|H]; [left; exact H|].
      exfalso. rewrite sent_microsoft_attempt, sent_lingva_attempt,
        sent_mymemory_attempt in H.
      destruct (encodeURIComponent w text); simpl in H;
        repeat (destruct H as [H|H]; [subst r; discriminate Hg|]); exact H.
    - right. unfold detectLanguage in Hin.
      destruct (usable_key (GOOGLE_TRANSLATE_API_KEY w)) as [key|]; [|exact Hin].
      destruct (try_catch_completes (google_detect_block w key text)) as [[v|] Hc].
      + rewrite (or_else_yields _ _ _ Hc) in Hin. simpl in Hin.
        rewrite sent_try_catch in Hin. unfold google_detect_block in Hin.
        rewrite sent_fetch_then in Hin by (intros; silence). exact Hin.
      + rewrite (or_else_fails _ _ Hc) in Hin. simpl in Hin.
        rewrite app_nil_r, sent_try_catch in Hin. unfold google_detect_block in Hin.
        rewrite sent_fetch_then in Hin by (intros; silence). exact Hin. }
  rewrite sent_google_attempt in Hcases.
  destruct (usable_key (GOOGLE_TRANSLATE_API_KEY w)) as [key|] eqn:Hkey.
  - destruct (usable_key_inv _ _ Hkey) as [Hset [Hne Hdemo]].
    exists key. repeat split; try assumption.
    destruct Hcases as [[H|[]]|[H|[]]]; auto.
  - destruct Hcases as [[]|[]].
Qed.

(** With the key ["key"] Google is asked for the translation. *)
Lemma google_asked_only_with_usable_key_set :
  exists key,
    GOOGLE_TRANSLATE_API_KEY (Demo.world (Some (lit "key")) None google_answers)
    = Some key
    /\ key <> [] /\ key <> lit "demo_key"
    /\ (GoogleTranslate (lit "key") (lit "Hello") None (lit "es")
        = google_request key (lit "Hello") (lit "auto") (lit "es")
        \/ GoogleTranslate (lit "key") (lit "Hello") None (lit "es")
           = GoogleDetect key (lit "Hello")).
Proof.
  apply (google_asked_only_with_usable_key
           (Demo.world (Some (lit "key")) None google_answers)
           (lit "Hello") (lit "auto") (lit "es")
           (GoogleTranslate (lit "key") (lit "Hello") None (lit "es"))).
  - left. left. reflexivity.
  - reflexivity.
Defined.

(** X3. Every request of a run carries the text and the target language
    the resolver was given; the source language goes to Lingva as it is
    (["auto"] included), is left out for Google and Microsoft when it is
    ["auto"], and is replaced by ["en"] for MyMemory when it is ["auto"]. *)
Theorem translateText_requests_well_addressed :
  forall (w : World) (text from to : jsstring),
    Forall (well_addressed w text from to) (sent (translateText w text from to)).
Proof.
  intros w text from to.
  destruct (sent_translateText_prefix w text from to) as [unsent Hall].
  assert (Hfull : Forall (well_addressed w text from to)
                    (sent (translateText w text from to) ++ unsent)).
  { rewrite Hall, sent_google_attempt, sent_microsoft_attempt,
      sent_lingva_attempt, sent_mymemory_attempt.
    destruct (usable_key _) as [key|] eqn:Hkey;
      destruct (encodeURIComponent w text) as [enc|] eqn:Henc; simpl;
      repeat constructor; simpl; try reflexivity; try exact Henc;
      try (apply usable_key_inv in Hkey; apply Hkey);
      try (destruct (str_eqb from (lit "auto")); reflexivity);
      try (unfold lingva_request; simpl;
           destruct (str_eqb from (lit "auto")) eqn:Q;
           [symmetry; apply str_eqb_eq, Q | reflexivity]). }
  apply Forall_app in Hfull. apply Hfull.
Qed.

(** X4. A text that [encodeURIComponent] refuses (a lone surrogate) never
    reaches Lingva or MyMemory: both attempts fail without a request, so
    only Google and Microsoft are asked and the resolver throws when these
    two fail. *)
Theorem unencodable_text_skips_url_providers :
  forall (w : World) (text from to : jsstring),
    encodeURIComponent w text = None ->
    fails (lingva_attempt w text from to)
    /\ fails (mymemory_attempt w text from to)
    /\ Forall (fun r => provider_of r = Google \/ provider_of r = Microsoft)
         (sent (translateText w text from to))
    /\ (fails (google_attempt w text from to) ->
        fails (microsoft_attempt w text from to) ->
        completion (translateText w text from to)
        = Throw (Error "All translation services failed")).
Proof.
  intros w text from to Henc.
  assert (Hl : fails (lingva_attempt w text from to)).
  { apply lingva_unanswered. intros enc H. congruence. }
  assert (Hy : fails (mymemory_attempt w text from to)).
  { apply mymemory_unanswered. intros enc H. congruence. }
  repeat split; try assumption.
  - destruct (sent_translateText_prefix w text from to) as [unsent Hall].
    assert (Hfull : Forall (fun r => provider_of r = Google \/ provider_of r = Microsoft)
                      (sent (translateText w text from to) ++ unsent)).
    { rewrite Hall, sent_google_attempt, sent_microsoft_attempt,
        sent_lingva_attempt, sent_mymemory_attempt, Henc.
      destruct (usable_key _); simpl; repeat constructor;
        try (left; reflexivity); right; reflexivity. }
    apply Forall_app in Hfull. apply Hfull.
  - intros Hg Hm. apply translateText_exhausted; assumption.
Qed.

(** A lone high surrogate as the text, and no service reachable. *)
Lemma unencodable_text_skips_url_providers_lone_surrogate :
  sent (translateText (strict_world None None Demo.offline)
          [0xD83D]%N (lit "auto") (lit "es"))
  = [MicrosoftTranslate (lit "es") None (lit "none") [0xD83D]%N]
  /\ Forall (fun r => provider_of r = Google \/ provider_of r = Microsoft)
       (sent (translateText (strict_world None None Demo.offline)
                [0xD83D]%N (lit "auto") (lit "es"))).
Proof.
  split; [reflexivity|].
  apply (unencodable_text_skips_url_providers
           (strict_world None None Demo.offline)
           [0xD83D]%N (lit "auto") (lit "es")).
  reflexivity.
Defined.

(** X5. MyMemory's answer counts only with [responseStatus] the number
    200: with any other value there, a string ["200"] included, the
    attempt fails whatever translation the body holds. *)
Theorem mymemory_requires_status_200 :
  forall (w : World) (text from to enc : jsstring) (data st : JSValue),
    encodeURIComponent w text = Some enc ->
    network w (mymemory_request enc from to)
    = Fulfilled {| ok := true; body := Some data |} ->
    path data [Field "responseStatus"] = Return st ->
    st <> JNum 200 ->
    fails (mymemory_attempt w text from to).
Proof.
  intros w text from to enc data st Henc Hnet Hst Hne.
  unfold fails, mymemory_attempt. rewrite completion_try_catch.
  unfold mymemory_block, encoded_text. rewrite Henc, bind_step_return.
  rewrite answered with (data := data) by exact Hnet.
  rewrite Hst, bind_step_return.
  assert (Hfalse : strict_eq_num st 200 = false).
  { destruct st as [| |b|n|s|l|fs]; simpl; try reflexivity.
    apply Z.eqb_neq. congruence. }
  rewrite Hfalse, !and_also_stop by reflexivity.
  rewrite bind_step_return. reflexivity.
Qed.

(** MyMemory answering ["Hola"] with the status ["200"], a string. *)
Lemma mymemory_requires_status_200_string :
  fails (mymemory_attempt (Demo.world None None mymemory_string_status)
           (lit "Hello") (lit "auto") (lit "es")).
Proof.
  apply (mymemory_requires_status_200
           (Demo.world None None mymemory_string_status)
           (lit "Hello") (lit "auto") (lit "es") (lit "Hello")
           (JObj [(lit "responseStatus", JStr (lit "200"));
                  (lit "responseData",
                   JObj [(lit "translatedText", JStr (lit "Hola"))])])
           (JStr (lit "200"))).
  - reflexivity.
  - reflexivity.
  - reflexivity.
  - discriminate.
Defined.

(** X6. An attempt whose request gets no usable answer (the call errors,
    the status is not a success, or the body is not JSON) fails, for each
    of the four providers. *)
Theorem unanswered_attempt_fails :
  forall (p : Provider) (w : World) (text from to : jsstring),
    Forall (unanswered w) (sent (attempt_of p w text from to)) ->
    fails (attempt_of p w text from to).
Proof.
  intros [] w text from to H; simpl in *.
  - apply google_unanswered. intros key Hkey.
    rewrite sent_google_attempt, Hkey in H. inversion H; assumption.
  - apply microsoft_unanswered.
    rewrite sent_microsoft_attempt in H. inversion H; assumption.
  - apply lingva_unanswered. intros enc Henc.
    rewrite sent_lingva_attempt, Henc in H. inversion H; assumption.
  - apply mymemory_unanswered. intros enc Henc.
    rewrite sent_mymemory_attempt, Henc in H. inversion H; assumption.
Qed.

(** Lingva answering with a status that is not a success. *)
Lemma unanswered_attempt_fails_bad_status :
  fails (lingva_attempt (Demo.world None None Demo.failing_each_way)
           (lit "Hello") (lit "auto") (lit "es")).
Proof.
  apply (unanswered_attempt_fails Lingva
           (Demo.world None None Demo.failing_each_way)
           (lit "Hello") (lit "auto") (lit "es")).
  constructor; [|constructor].
  right. eexists. split; [reflexivity | left; reflexivity].
Defined.

(** Only MyMemory answers, with ["Hola"]: that is the result. *)
Lemma mymemory_yields_checked_hola :
  exists t,
    JStr (lit "Hola") = JStr t /\ t <> []
    /\ toLowerCase (Demo.world None None (Demo.mymemory_says (lit "Hola"))) t
       <> toLowerCase (Demo.world None None (Demo.mymemory_says (lit "Hola")))
            (lit "Hello").
Proof.
  apply (mymemory_yields_checked
           (Demo.world None None (Demo.mymemory_says (lit "Hola")))
           (lit "Hello") (lit "auto") (lit "es") (JStr (lit "Hola"))).
  reflexivity.
Defined.

(** Only Lingva answers, with ["Hola"]. *)
Lemma lingva_yields_checked_hola :
  truthy (JStr (lit "Hola")) = true.
Proof.
  apply (lingva_yields_checked (Demo.world None None Demo.lingva_hola)
           (lit "Hello") (lit "auto") (lit "es") (JStr (lit "Hola"))).
  reflexivity.
Defined.

(** Only Lingva answers: Lingva is the provider whose attempt returned,
    and MyMemory is not asked. *)
Lemma translateText_first_return_lingva :
  exists p,
    yields (attempt_of p (Demo.world None None Demo.lingva_hola)
              (lit "Hello") (lit "auto") (lit "es")) (JStr (lit "Hola"))
    /\ (forall q, rank q < rank p ->
                  fails (attempt_of q (Demo.world None None Demo.lingva_hola)
                           (lit "Hello") (lit "auto") (lit "es")))
    /\ Forall (fun r => rank (provider_of r) <= rank p)
         (sent (translateText (Demo.world None None Demo.lingva_hola)
                  (lit "Hello") (lit "auto") (lit "es"))).
Proof.
  apply (translateText_first_return (Demo.world None None Demo.lingva_hola)
           (lit "Hello") (lit "auto") (lit "es") (JStr (lit "Hola"))).
  reflexivity.
Defined.

(** ** The handlers and the store *)

(** X10. POST /api/translate answers 400, 500 or 200.  It leaves the store
    as it is unless it answers 200, and then it has put exactly one record
    behind the others, under the id the counter had, stamped with the time
    of the call, and moved the counter by one.  The store stays one the
    server can be in. *)
Theorem post_translate_store_effect :
  forall (w : World) (now : Z) (body : Body) (store : MemStorage),
    Reachable store ->
    Reachable (storage (post_translate w now body store))
    /\ ((status (response (post_translate w now body store)) = 400%Z
         /\ storage (post_translate w now body store) = store
         /\ outbound (post_translate w now body store) = [])
        \/ (status (response (post_translate w now body store)) = 500%Z
            /\ storage (post_translate w now body store) = store)
        \/ (status (response (post_translate w now body store)) = 200%Z
            /\ exists t,
                 translations (storage (post_translate w now body store))
                 = (translations store ++ [(currentTranslationId store, t)])%list
                 /\ id t = currentTranslationId store
                 /\ createdAt t = now
                 /\ currentTranslationId (storage (post_translate w now body store))
                    = (currentTranslationId store + 1)%Z)).
Proof.
  intros w now body store Hreach.
  destruct (body_cases body) as [Hbad | [txt [dst [Hbody [Htxt Hdst]]]]].
  { rewrite (post_translate_rejects w now body store Hbad).
    split; [exact Hreach | left; repeat split]. }
  rewrite Hbody.
  destruct (post_translate_cases w now store txt dst (from body) Htxt Hdst)
    as [[v [reqs [_ [_ Hpost]]]] | [H500 Hsame]].
  - rewrite Hpost. cbn [storage response status res_json res_status_json]. split.
    + apply Reachable_create, Hreach.
    + right. right. split; [reflexivity|].
      exists (fst (createTranslation
                     {| ins_sourceText := txt; ins_translatedText := v;
                        ins_sourceLanguage := or_default (from body) (lit "auto");
                        ins_targetLanguage := dst |} now store)).
      split; [|repeat split].
      apply createTranslation_appends, Reachable_inv, Hreach.
  - rewrite Hsame, H500. split; [exact Hreach|].
    right. left. split; reflexivity.
Qed.

(** The request [{text: "Hello", to: "es"}] on a fresh store when only
    Lingva answers. *)
Lemma post_translate_store_effect_hola :
  Reachable (storage (post_translate (Demo.world None None Demo.lingva_hola) 1000
                        {| text := Some (lit "Hello"); from := None;
                           to := Some (lit "es") |}
                        new_MemStorage))
  /\ map fst (translations
                (storage (post_translate (Demo.world None None Demo.lingva_hola)
                            1000
                            {| text := Some (lit "Hello"); from := None;
                               to := Some (lit "es") |}
                            new_MemStorage)))
     = [1%Z].
Proof.
  split; [|reflexivity].
  apply (post_translate_store_effect (Demo.world None None Demo.lingva_hola) 1000
           {| text := Some (lit "Hello"); from := None; to := Some (lit "es") |}
           new_MemStorage).
  apply Reachable_new.
Defined.

(** The request [{text: "Hello", to: "es"}] on a fresh store when only
    Lingva answers, then GET /api/translations. *)
Lemma get_translations_after_post_hola :
  exists txt rest,
    Some (lit "Hello") = Some txt
    /\ payload (response
                  (get_translations
                     (storage (post_translate
                                 (Demo.world None None Demo.lingva_hola) 1000
                                 {| text := Some (lit "Hello"); from := None;
                                    to := Some (lit "es") |}
                                 new_MemStorage))))
       = TranslationsJson
           ({| id := 1; sourceText := txt;
               translatedText := JStr (lit "Hola");
               sourceLanguage := lit "auto"; targetLanguage := lit "es";
               createdAt := 1000 |} :: rest).
Proof.
  apply (get_translations_after_post (Demo.world None None Demo.lingva_hola) 1000
           new_MemStorage
           {| text := Some (lit "Hello"); from := None; to := Some (lit "es") |}
           (JStr (lit "Hola")) (lit "auto") (lit "es")).
  - apply Reachable_new.
  - reflexivity.
  - constructor.
Defined.

(** *** A record that is not returned *)

Lemma sorted_filter_prefix {A} (R : A -> A -> Prop) (P : A -> bool) (l : list A) :
  (forall x y, R x y -> P y = true -> P x = true) ->
  StronglySorted R l ->
  l = (filter P l ++ filter (fun x => negb (P x)) l)%list.
Proof.
  intros Hdown. induction 1 as [|a l Hl IH Ha]; [reflexivity|].
  simpl. destruct (P a) eqn:Pa; simpl.
  - f_equal. exact IH.
  - assert (Hnone : filter P l = []).
    { clear IH Hl. induction l as [|y l IHl]; [reflexivity|].
      inversion Ha as [|? ? Hy Hrest]; subst. simpl.
      destruct (P y) eqn:Py.
      - rewrite (Hdown a y Hy Py) in Pa. discriminate.
      - apply IHl, Hrest. }
    rewrite Hnone in IH |- *. simpl in *. f_equal. exact IH.
Qed.

Lemma filter_length_le {A} (P Q : A -> bool) (l : list A) :
  Forall (fun x => Q x = true -> P x = true) l ->
  List.length (filter Q l) <= List.length (filter P l).
Proof.
  induction 1 as [|a l Ha Hl IH]; simpl; [lia|].
  destruct (Q a) eqn:Qa.
  - rewrite (Ha eq_refl). simpl. lia.
  - destruct (P a); simpl; lia.
Qed.

Lemma In_firstn_In {A} (n : nat) (l : list A) (x : A) :
  In x (firstn n l) -> In x l.
Proof.
  intros H. rewrite <- (firstn_skipn n l). apply in_or_app. left. exact H.
Qed.

Lemma Permutation_filter_length {A} (P : A -> bool) (l l' : list A) :
  Permutation l l' -> List.length (filter P l) = List.length (filter P l').
Proof.
  induction 1 as [|a l l' Hp IH|a b l|l l' l'' H1 IH1 H2 IH2]; simpl.
  - reflexivity.
  - destruct (P a); simpl; lia.
  - destruct (P a); destruct (P b); reflexivity.
  - lia.
Qed.

(** X12. A record is not among the [limit] recent ones when the store held,
    as it was created, at least [limit] records stamped with its time or
    a later one (as many creations in one millisecond, or a clock set
    back): the order is by [createdAt] only and earlier records win ties,
    so GET /api/translations does not show the translation just made. *)
Theorem crowded_out_of_recent :
  forall (store : MemStorage) (ins : InsertTranslation) (now : Z)
         (limit : option Z),
    Reachable store ->
    (0 <= or_omitted limit 10)%Z ->
    Z.to_nat (or_omitted limit 10)
    <= List.length (filter (fun t => (now <=? createdAt t)%Z)
                      (map_values (translations store))) ->
    ~ In (fst (createTranslation ins now store))
         (getRecentTranslations limit (snd (createTranslation ins now store))).
Proof.
  intros store ins now limit Hreach Hk Hmany.
  set (r := fst (createTranslation ins now store)).
  set (P := fun x => ((createdAt r <? createdAt x)
                      || ((createdAt x =? createdAt r) && (id x <? id r)))%Z).
  pose proof (Reachable_inv _ Hreach) as Hinv.
  pose proof (createTranslation_appends ins now store Hinv) as Happ.
  fold r in Happ.
  assert (Hvals : map_values (translations (snd (createTranslation ins now store)))
                  = (map_values (translations store) ++ [r])%list).
  { rewrite Happ. unfold map_values. rewrite map_app. reflexivity. }
  destruct (Reachable_inv _ (Reachable_create ins now Hreach)) as [Hsorted' _].
  pose proof (sort_recent _ Hsorted') as Hrecent.
  pose proof (sort_perm (fun a b => createdAt b - createdAt a)%Z
                (map_values (translations (snd (createTranslation ins now store)))))
    as Hperm.
  unfold getRecentTranslations. rewrite slice0_nonneg by exact Hk.
  set (sorted := sort (fun a b => createdAt b - createdAt a)%Z
                   (map_values (translations (snd (createTranslation ins now store)))))
    in *.
  assert (Hsplit : sorted = (filter P sorted
                             ++ filter (fun x => negb (P x)) sorted)%list).
  { apply (sorted_filter_prefix recent_before P); [|exact Hrecent].
    intros x y Hxy Hy. unfold P, recent_before in *.
    apply orb_true_iff in Hy. apply orb_true_iff.
    rewrite andb_true_iff, Z.ltb_lt, Z.eqb_eq, Z.ltb_lt in *. lia. }
  assert (Hlen : Z.to_nat (or_omitted limit 10) <= List.length (filter P sorted)).
  { rewrite (Permutation_filter_length P _ _ Hperm), Hvals, filter_app, length_app.
    assert (Hle : List.length (filter (fun t => (now <=? createdAt t)%Z)
                                 (map_values (translations store)))
                  <= List.length (filter P (map_values (translations store)))).
    { apply filter_length_le. destruct Hinv as [_ Hkeys].
      unfold map_values. rewrite Forall_map.
      eapply Forall_impl; [|exact Hkeys]. simpl. intros kv [_ Hlt] Hq.
      unfold P. apply Z.leb_le in Hq. apply orb_true_iff.
      rewrite andb_true_iff, Z.ltb_lt, Z.eqb_eq, Z.ltb_lt.
      change (createdAt r) with now. change (id r) with (currentTranslationId store).
      lia. }
    lia. }
  intros Hin. rewrite Hsplit, firstn_app in Hin.
  replace (Z.to_nat (or_omitted limit 10) - List.length (filter P sorted))
    with 0 in Hin by lia.
  rewrite firstn_O, app_nil_r in Hin.
  apply In_firstn_In in Hin. apply filter_In in Hin. destruct Hin as [_ HP].
  unfold P in HP. rewrite Z.ltb_irrefl, (Z.ltb_irrefl (id r)), andb_false_r in HP.
  discriminate HP.
Qed.

(** The eleventh of eleven translations made in the same millisecond is
    not among the ten that GET /api/translations returns. *)
Lemma crowded_out_of_recent_eleventh :
  map id (getRecentTranslations (Some 10%Z)
            (snd (create_all eleven_at_once new_MemStorage)))
  = [1; 2; 3; 4; 5; 6; 7; 8; 9; 10]%Z
  /\ ~ In (fst (createTranslation (Demo.insert_of "one" "uno") 5
                  (snd (create_all (repeat (Demo.insert_of "one" "uno", 5%Z) 10)
                          new_MemStorage))))
          (getRecentTranslations (Some 10%Z)
             (snd (createTranslation (Demo.insert_of "one" "uno") 5
                     (snd (create_all (repeat (Demo.insert_of "one" "uno", 5%Z) 10)
                             new_MemStorage))))).
Proof.
  split; [reflexivity|].
  apply (crowded_out_of_recent
           (snd (create_all (repeat (Demo.insert_of "one" "uno", 5%Z) 10)
                   new_MemStorage))
           (Demo.insert_of "one" "uno") 5 (Some 10%Z)).
  - apply create_all_Reachable, Reachable_new.
  - discriminate.
  - vm_compute. apply le_n.
Defined.

(** X13. A negative limit counts from the end: [getRecentTranslations(k)]
    with [k < 0] returns the records in the usual order without the last
    [-k] of them (none when there are no more than [-k]). *)
Theorem getRecentTranslations_negative_limit :
  forall (s : MemStorage) (k : Z),
    (k < 0)%Z ->
    exists dropped,
      getRecentTranslations
        (Some (Z.of_nat (List.length (map_values (translations s))))) s
      = (getRecentTranslations (Some k) s ++ dropped)%list
      /\ List.length dropped
         = Nat.min (Z.to_nat (- k)) (List.length (map_values (translations s))).
Proof.
  intros s k Hk. unfold getRecentTranslations. cbn [or_omitted].
  set (sorted := sort (fun a b => createdAt b - createdAt a)%Z
                   (map_values (translations s))).
  assert (Hlen : List.length sorted = List.length (map_values (translations s))).
  { apply Permutation_length, sort_perm. }
  rewrite <- Hlen.
  rewrite slice0_nonneg by lia. rewrite Nat2Z.id, firstn_all.
  unfold slice0. destruct (Z.ltb_spec k 0) as [_|Hge]; [|lia].
  exists (skipn (Z.to_nat (Z.max (Z.of_nat (List.length sorted) + k) 0)) sorted).
  split.
  - symmetry. apply firstn_skipn.
  - rewrite length_skipn. lia.
Qed.

(** Three records and the limit -1: the two most recent. *)
Lemma getRecentTranslations_negative_limit_three :
  exists dropped,
    getRecentTranslations (Some 3%Z)
      (snd (create_all [(Demo.insert_of "one" "uno", 5%Z);
                        (Demo.insert_of "two" "dos", 6%Z);
                        (Demo.insert_of "three" "tres", 7%Z)]
              new_MemStorage))
    = (getRecentTranslations (Some (-1)%Z)
         (snd (create_all [(Demo.insert_of "one" "uno", 5%Z);
                           (Demo.insert_of "two" "dos", 6%Z);
                           (Demo.insert_of "three" "tres", 7%Z)]
                 new_MemStorage)) ++ dropped)%list
    /\ List.length dropped = 1.
Proof.
  apply (getRecentTranslations_negative_limit
           (snd (create_all [(Demo.insert_of "one" "uno", 5%Z);
                             (Demo.insert_of "two" "dos", 6%Z);
                             (Demo.insert_of "three" "tres", 7%Z)]
                   new_MemStorage))
           (-1)%Z).
  reflexivity.
Defined.

(** ** Language detection *)

Lemma sent_google_detect_block (w : World) (key text : jsstring) :
  sent (google_detect_block w key text) = [GoogleDetect key text].
Proof. unfold google_detect_block. apply sent_fetch_then. intros r. silence. Qed.

Lemma sent_detectLanguage (w : World) (text : jsstring) :
  sent (detectLanguage w text)
  = match usable_key (GOOGLE_TRANSLATE_API_KEY w) with
    | Some key => [GoogleDetect key text]
    | None => []
    end.
Proof.
  unfold detectLanguage.
  destruct (usable_key (GOOGLE_TRANSLATE_API_KEY w)) as [key|]; [|reflexivity].
  destruct (try_catch_completes (google_detect_block w key text)) as [[v|] Hc].
  - rewrite (or_else_yields _ _ _ Hc). simpl.
    rewrite sent_try_catch. apply sent_google_detect_block.
  - rewrite (or_else_fails _ _ Hc). simpl.
    rewrite app_nil_r, sent_try_catch. apply sent_google_detect_block.
Qed.

(** X14. [detectLanguage] with a usable key asks Google once and returns
    what the answer holds at [data.detections[0][0].language], whatever
    that is; when Google gives no usable answer, or a read on the way to
    that field throws, it returns the heuristic's answer. *)
Theorem detectLanguage_google_then_heuristic :
  forall (w : World) (text key : jsstring),
    usable_key (GOOGLE_TRANSLATE_API_KEY w) = Some key ->
    sent (detectLanguage w text) = [GoogleDetect key text]
    /\ (forall v,
           answers w (GoogleDetect key text)
             [Field "data"; Field "detections"; Zero; Zero; Field "language"] v ->
           completion (detectLanguage w text) = Return v)
    /\ (unanswered w (GoogleDetect key text) ->
        completion (detectLanguage w text)
        = Return (JStr (lit (Detector.heuristic text))))
    /\ (forall data e,
           network w (GoogleDetect key text)
           = Fulfilled {| ok := true; body := Some data |} ->
           path data [Field "data"; Field "detections"; Zero; Zero; Field "language"]
           = Throw e ->
           completion (detectLanguage w text)
           = Return (JStr (lit (Detector.heuristic text)))).
Proof.
  intros w text key Hkey.
  split; [rewrite sent_detectLanguage, Hkey; reflexivity|].
  unfold detectLanguage. rewrite Hkey.
  split; [|split].
  - intros v [data [Hnet Hpath]].
    assert (Hc : completion (try_catch (google_detect_block w key text))
                 = Return (Some v)).
    { rewrite completion_try_catch. unfold google_detect_block.
      rewrite answered with (data := data) by exact Hnet.
      rewrite Hpath, bind_step_return. reflexivity. }
    rewrite (or_else_yields _ _ _ Hc). reflexivity.
  - intros H.
    assert (Hc : completion (try_catch (google_detect_block w key text))
                 = Return None).
    { unfold google_detect_block. fall_through H. }
    rewrite (or_else_fails _ _ Hc). reflexivity.
  - intros data e Hnet Hpath.
    assert (Hc : completion (try_catch (google_detect_block w key text))
                 = Return None).
    { rewrite completion_try_catch. unfold google_detect_block.
      rewrite answered with (data := data) by exact Hnet.
      rewrite completion_bind_step, Hpath. reflexivity. }
    rewrite (or_else_fails _ _ Hc). reflexivity.
Qed.

(** Google detecting ["fr"]. *)
Lemma detectLanguage_google_then_heuristic_fr :
  completion (detectLanguage (Demo.world (Some (lit "key")) None google_answers)
                (lit "Bonjour"))
  = Return (JStr (lit "fr")).
Proof.
  destruct (detectLanguage_google_then_heuristic
              (Demo.world (Some (lit "key")) None google_answers)
              (lit "Bonjour") (lit "key") eq_refl)
    as [_ [Hanswer _]].
  apply Hanswer. eexists. split; reflexivity.
Defined.

(** X15. POST /api/detect-language answers 400 "Text is required" when
    the text is missing or empty and 200 otherwise, never 500; it leaves
    the store as it is, and sends at most one request, to Google and only
    with a usable key. *)
Theorem post_detect_language_outcome :
  forall (w : World) (body : Body) (store : MemStorage),
    storage (post_detect_language w body store) = store
    /\ status (response (post_detect_language w body store))
       = (if truthy_str (text body) then 200 else 400)%Z
    /\ (truthy_str (text body) = false ->
        payload (response (post_detect_language w body store))
        = ErrorJson "Text is required"
        /\ outbound (post_detect_language w body store) = [])
    /\ (forall txt,
           text body = Some txt -> txt <> [] ->
           exists language,
             payload (response (post_detect_language w body store))
             = DetectJson language
             /\ completion (detectLanguage w txt) = Return language
             /\ outbound (post_detect_language w body store)
                = match usable_key (GOOGLE_TRANSLATE_API_KEY w) with
                  | Some key => [GoogleDetect key txt]
                  | None => []
                  end).
Proof.
  intros w body store. unfold post_detect_language.
  destruct (truthy_str (text body)) eqn:T; cbn [negb].
  - destruct (detectLanguage_returns w (or_default (text body) [])) as [v Hv].
    destruct (detectLanguage w (or_default (text body) [])) as [c reqs] eqn:E.
    simpl in Hv. subst c. cbn [storage response status payload outbound res_json
                                res_status_json].
    split; [reflexivity|]. split; [reflexivity|]. split; [discriminate|].
    intros txt Htxt Hne. rewrite Htxt in E.
    destruct txt as [|c txt]; [congruence|]. cbn [or_default] in E.
    exists v. split; [reflexivity|]. rewrite E. split; [reflexivity|].
    change reqs with (sent (Return v, reqs)). rewrite <- E.
    apply sent_detectLanguage.
  - cbn [storage response status payload outbound res_status_json].
    split; [reflexivity|]. split; [reflexivity|]. split; [auto|].
    intros txt Htxt Hne. rewrite Htxt in T. destruct txt; [congruence|discriminate].
Qed.

(** ** The heuristic of [detectLanguage], further *)

Lemma test_class_all (cls : N -> bool) (text : jsstring) :
  text <> [] -> Forall (fun c => cls c = true) text ->
  Detector.test_class cls text = true.
Proof.
  intros Hne Hall. destruct text as [|c text]; [congruence|].
  inversion Hall as [|? ? Hc _]; subst. simpl. rewrite Hc. reflexivity.
Qed.

Lemma test_class_none (cls cls' : N -> bool) (text : jsstring) :
  (forall c, cls c = true -> cls' c = false) ->
  Forall (fun c => cls c = true) text ->
  Detector.test_class cls' text = false.
Proof.
  intros Hex. induction 1 as [|c text Hc Hall IH]; [reflexivity|].
  simpl. rewrite (Hex c Hc). exact IH.
Qed.

Ltac ranges :=
  unfold Detector.isChinese, Detector.isJapanese, Detector.isKorean,
    Detector.isCyrillic, Detector.isArabic, Detector.isLatin,
    Detector.in_range in *;
  intros;
  repeat match goal with
         | H : _ || _ = true |- _ => apply orb_true_iff in H; destruct H
         | H : _ && _ = true |- _ => apply andb_true_iff in H; destruct H
         | H : (_ <=? _)%N = true |- _ => apply N.leb_le in H
         end;
  repeat match goal with
         | |- _ || _ = false => apply orb_false_iff; split
         | |- _ && _ = false => apply andb_false_iff
         end;
  rewrite ?N.leb_gt; lia.

(** The six classes are pairwise disjoint. *)
Lemma classes_disjoint (c : N) :
  (Detector.isJapanese c = true -> Detector.isChinese c = false)
  /\ (Detector.isKorean c = true ->
      Detector.isChinese c = false /\ Detector.isJapanese c = false)
  /\ (Detector.isCyrillic c = true ->
      Detector.isChinese c = false /\ Detector.isJapanese c = false
      /\ Detector.isKorean c = false)
  /\ (Detector.isArabic c = true ->
      Detector.isChinese c = false /\ Detector.isJapanese c = false
      /\ Detector.isKorean c = false /\ Detector.isCyrillic c = false)
  /\ (Detector.isLatin c = true ->
      Detector.isChinese c = false /\ Detector.isJapanese c = false
      /\ Detector.isKorean c = false /\ Detector.isCyrillic c = false
      /\ Detector.isArabic c = false).
Proof.
  repeat split; ranges.
Qed.

(** A text that is not empty and all of whose code units pass one class
    test gets the code of that class. *)
Lemma heuristic_single_class (text : jsstring) :
  text <> [] ->
  (Forall (fun c => Detector.isChinese c = true) text ->
   Detector.heuristic text = "zh"%string)
  /\ (Forall (fun c => Detector.isJapanese c = true) text ->
      Detector.heuristic text = "ja"%string)
  /\ (Forall (fun c => Detector.isKorean c = true) text ->
      Detector.heuristic text = "ko"%string)
  /\ (Forall (fun c => Detector.isCyrillic c = true) text ->
      Detector.heuristic text = "ru"%string)
  /\ (Forall (fun c => Detector.isArabic c = true) text ->
      Detector.heuristic text = "ar"%string)
  /\ (Forall (fun c => Detector.isLatin c = true) text ->
      Detector.heuristic text = "en"%string).
Proof.
  intros Hne.
  repeat match goal with |- _ /\ _ => split end;
    intros Hall; unfold Detector.heuristic.
  - rewrite (test_class_all _ _ Hne Hall). reflexivity.
  - rewrite (test_class_none Detector.isJapanese Detector.isChinese text)
      by (exact Hall || (intros c Hc; pose proof (classes_disjoint c); tauto)).
    rewrite (test_class_all _ _ Hne Hall). reflexivity.
  - rewrite (test_class_none Detector.isKorean Detector.isChinese text),
      (test_class_none Detector.isKorean Detector.isJapanese text)
      by (exact Hall || (intros c Hc; pose proof (classes_disjoint c); tauto)).
    rewrite (test_class_all _ _ Hne Hall). reflexivity.
  - rewrite (test_class_none Detector.isCyrillic Detector.isChinese text),
      (test_class_none Detector.isCyrillic Detector.isJapanese text),
      (test_class_none Detector.isCyrillic Detector.isKorean text)
      by (exact Hall || (intros c Hc; pose proof (classes_disjoint c); tauto)).
    rewrite (test_class_all _ _ Hne Hall). reflexivity.
  - rewrite (test_class_none Detector.isArabic Detector.isChinese text),
      (test_class_none Detector.isArabic Detector.isJapanese text),
      (test_class_none Detector.isArabic Detector.isKorean text),
      (test_class_none Detector.isArabic Detector.isCyrillic text)
      by (exact Hall || (intros c Hc; pose proof (classes_disjoint c); tauto)).
    rewrite (test_class_all _ _ Hne Hall). reflexivity.
  - rewrite (test_class_none Detector.isLatin Detector.isChinese text),
      (test_class_none Detector.isLatin Detector.isJapanese text),
      (test_class_none Detector.isLatin Detector.isKorean text),
      (test_class_none Detector.isLatin Detector.isCyrillic text),
      (test_class_none Detector.isLatin Detector.isArabic text)
      by (exact Hall || (intros c Hc; pose proof (classes_disjoint c); tauto)).
    destruct (Detector.test_class Detector.isLatin text); reflexivity.
Qed.

Lemma Forall_class (cls : N -> bool) (range : N -> Prop) (text : jsstring) :
  (forall c, cls c = true <-> range c) ->
  Forall range text -> Forall (fun c => cls c = true) text.
Proof.
  intros Hspec. apply Forall_impl. intros c Hc. apply Hspec, Hc.
Qed.

(** X16. A text that is not empty and whose code units all lie in one of
    the ranges gets the code of that range: only CJK Unified Ideographs
    (U+4E00 to U+9FFF), zh; only Hiragana or Katakana (U+3040 to U+30FF),
    ja; only Hangul Syllables (U+AC00 to U+D7AF), ko; only Cyrillic
    (U+0400 to U+04FF), ru; only Arabic (U+0600 to U+06FF), ar; only
    letters A to Z and a to z, en, and then by the test for Latin letters,
    not by the default. *)
Theorem heuristic_single_script :
  forall text : jsstring,
    text <> [] ->
    (Forall CJK_Unified_Ideographs text -> Detector.heuristic text = "zh"%string)
    /\ (Forall Kana text -> Detector.heuristic text = "ja"%string)
    /\ (Forall Hangul_Syllables text -> Detector.heuristic text = "ko"%string)
    /\ (Forall Cyrillic text -> Detector.heuristic text = "ru"%string)
    /\ (Forall Arabic text -> Detector.heuristic text = "ar"%string)
    /\ (Forall Basic_Latin_letter text ->
        Detector.test_class Detector.isLatin text = true
        /\ Detector.heuristic text = "en"%string).
Proof.
  intros text Hne.
  destruct (heuristic_single_class text Hne) as [Hzh [Hja [Hko [Hru [Har Hen]]]]].
  repeat match goal with |- _ /\ _ => split end; intros Hall.
  - apply Hzh, (Forall_class _ _ text isChinese_spec Hall).
  - apply Hja, (Forall_class _ _ text isJapanese_spec Hall).
  - apply Hko, (Forall_class _ _ text isKorean_spec Hall).
  - apply Hru, (Forall_class _ _ text isCyrillic_spec Hall).
  - apply Har, (Forall_class _ _ text isArabic_spec Hall).
  - split.
    + apply (test_class_all _ _ Hne), (Forall_class _ _ text isLatin_spec Hall).
    + apply Hen, (Forall_class _ _ text isLatin_spec Hall).
Qed.

(** A word in each script: two CJK ideographs, Hiragana with Katakana, two
    Hangul syllables, three Cyrillic letters, two Arabic letters, and
    ["Hi"]. *)
Lemma heuristic_single_script_hangul :
  Detector.heuristic [0x4E2D; 0x6587]%N = "zh"%string
  /\ Detector.heuristic [0x3042; 0x30AB]%N = "ja"%string
  /\ Detector.heuristic [0xD55C; 0xAE00]%N = "ko"%string
  /\ Detector.heuristic [0x436; 0x443; 0x43A]%N = "ru"%string
  /\ Detector.heuristic [0x639; 0x631]%N = "ar"%string
  /\ Detector.test_class Detector.isLatin [0x48; 0x69]%N = true
  /\ Detector.heuristic [0x48; 0x69]%N = "en"%string.
Proof.
  repeat match goal with |- _ /\ _ => split end.
  - destruct (heuristic_single_script [0x4E2D; 0x6587]%N) as [H _].
    + discriminate.
    + apply H. repeat (apply Forall_cons; [cbv; intuition congruence|]).
      apply Forall_nil.
  - destruct (heuristic_single_script [0x3042; 0x30AB]%N) as [_ [H _]].
    + discriminate.
    + apply H. repeat (apply Forall_cons; [cbv; intuition congruence|]).
      apply Forall_nil.
  - destruct (heuristic_single_script [0xD55C; 0xAE00]%N) as [_ [_ [H _]]].
    + discriminate.
    + apply H. repeat (apply Forall_cons; [cbv; intuition congruence|]).
      apply Forall_nil.
  - destruct (heuristic_single_script [0x436; 0x443; 0x43A]%N)
      as [_ [_ [_ [H _]]]].
    + discriminate.
    + apply H. repeat (apply Forall_cons; [cbv; intuition congruence|]).
      apply Forall_nil.
  - destruct (heuristic_single_script [0x639; 0x631]%N)
      as [_ [_ [_ [_ [H _]]]]].
    + discriminate.
    + apply H. repeat (apply Forall_cons; [cbv; intuition congruence|]).
      apply Forall_nil.
  - destruct (heuristic_single_script [0x48; 0x69]%N)
      as [_ [_ [_ [_ [_ H]]]]].
    + discriminate.
    + apply H. repeat (apply Forall_cons; [cbv; intuition congruence|]).
      apply Forall_nil.
  - destruct (heuristic_single_script [0x48; 0x69]%N)
      as [_ [_ [_ [_ [_ H]]]]].
    + discriminate.
    + apply H. repeat (apply Forall_cons; [cbv; intuition congruence|]).
      apply Forall_nil.
Defined.

(** X17. The answer for a concatenation is the one of the two parts'
    answers that comes first in the order zh, ja, ko, ru, ar, en; so the
    order of the parts does not matter. *)
Theorem heuristic_app :
  forall a b : jsstring,
    Detector.heuristic (a ++ b)
    = first_of (Detector.heuristic a) (Detector.heuristic b)
    /\ Detector.heuristic (a ++ b) = Detector.heuristic (b ++ a).
Proof.
  intros a b. unfold Detector.heuristic, Detector.test_class.
  rewrite !existsb_app.
  destruct (existsb Detector.isChinese a), (existsb Detector.isChinese b);
    try (split; reflexivity);
    destruct (existsb Detector.isJapanese a), (existsb Detector.isJapanese b);
    try (split; reflexivity);
    destruct (existsb Detector.isKorean a), (existsb Detector.isKorean b);
    try (split; reflexivity);
    destruct (existsb Detector.isCyrillic a), (existsb Detector.isCyrillic b);
    try (split; reflexivity);
    destruct (existsb Detector.isArabic a), (existsb Detector.isArabic b);
    try (split; reflexivity);
    destruct (existsb Detector.isLatin a), (existsb Detector.isLatin b);
    split; reflexivity.
Qed.

(** X18. The answer depends only on which code units occur in the text,
    not on their order or number. *)
Theorem heuristic_same_code_units :
  forall a b : jsstring,
    (forall c, In c a <-> In c b) ->
    Detector.heuristic a = Detector.heuristic b.
Proof.
  intros a b Hsame.
  assert (Hcls : forall cls, Detector.test_class cls a = Detector.test_class cls b).
  { intros cls. unfold Detector.test_class.
    destruct (existsb cls a) eqn:Ea; destruct (existsb cls b) eqn:Eb;
      try reflexivity.
    - apply existsb_exists in Ea. destruct Ea as [c [Hin Hc]].
      assert (Eb' : existsb cls b = true)
        by (apply existsb_exists; exists c; split; [apply Hsame, Hin | exact Hc]).
      congruence.
    - apply existsb_exists in Eb. destruct Eb as [c [Hin Hc]].
      assert (Ea' : existsb cls a = true)
        by (apply existsb_exists; exists c; split; [apply Hsame, Hin | exact Hc]).
      congruence. }
  unfold Detector.heuristic. rewrite !Hcls. reflexivity.
Qed.

(** A Cyrillic letter among Latin ones, written twice and reversed. *)
Lemma heuristic_same_code_units_reversed :
  Detector.heuristic [0x61; 0x436; 0x62]%N
  = Detector.heuristic [0x62; 0x436; 0x436; 0x61; 0x61]%N.
Proof.
  apply (heuristic_same_code_units [0x61; 0x436; 0x62]%N
           [0x62; 0x436; 0x436; 0x61; 0x61]%N).
  intros c. simpl. tauto.
Defined.

(** ** The user half of the store *)

Lemma users_inv_new : users_inv Users.new_UserStorage.
Proof. split; constructor. Qed.

Lemma createUser_appends (ins : Users.InsertUser) (s : Users.UserStorage) :
  users_inv s ->
  Users.users (snd (Users.createUser ins s))
  = (Users.users s
     ++ [(Users.currentUserId s, fst (Users.createUser ins s))])%list.
Proof.
  intros [_ Hkeys]. simpl. apply map_set_fresh.
  eapply Forall_impl; [|exact Hkeys]. simpl. intros [k u] [Hk Hlt]; simpl in *. lia.
Qed.

Lemma users_inv_create (ins : Users.InsertUser) (s : Users.UserStorage) :
  users_inv s -> users_inv (snd (Users.createUser ins s)).
Proof.
  intros Hinv. pose proof (createUser_appends ins s Hinv) as Happ.
  destruct Hinv as [Hsorted Hkeys]. unfold users_inv. rewrite Happ.
  split.
  - unfold map_values. rewrite map_app. simpl. apply StronglySorted_snoc.
    + exact Hsorted.
    + unfold map_values. rewrite Forall_map.
      eapply Forall_impl; [|exact Hkeys]. simpl. intros kv [_ Hlt]. exact Hlt.
  - apply Forall_app; split.
    + eapply Forall_impl; [|exact Hkeys]. simpl. intros kv [Hk Hlt].
      split; [exact Hk|lia].
    + repeat constructor; simpl; lia.
Qed.

Lemma create_users_cons (ins : Users.InsertUser) (calls : list Users.InsertUser)
    (s : Users.UserStorage) :
  create_users (ins :: calls) s
  = (fst (Users.createUser ins s)
       :: fst (create_users calls (snd (Users.createUser ins s))),
     snd (create_users calls (snd (Users.createUser ins s)))).
Proof.
  cbn [create_users]. destruct (Users.createUser ins s) as [u s'].
  cbn [fst snd]. destruct (create_users calls s'); reflexivity.
Qed.

Lemma create_users_spec (calls : list Users.InsertUser) (s : Users.UserStorage) :
  users_inv s ->
  users_inv (snd (create_users calls s))
  /\ map Users.id (fst (create_users calls s))
     = map (fun i => Users.currentUserId s + Z.of_nat i)%Z
         (seq 0 (List.length calls))
  /\ map_values (Users.users (snd (create_users calls s)))
     = (map_values (Users.users s) ++ fst (create_users calls s))%list
  /\ map (fun u => (Users.username u, Users.password u))
       (fst (create_users calls s))
     = map (fun c => (Users.ins_username c, Users.ins_password c)) calls
  /\ Users.currentUserId (snd (create_users calls s))
     = (Users.currentUserId s + Z.of_nat (List.length calls))%Z.
Proof.
  revert s; induction calls as [|ins calls IH]; intros s Hinv.
  - simpl. rewrite app_nil_r. repeat split; try apply Hinv. lia.
  - pose proof (createUser_appends ins s Hinv) as Happ.
    destruct (IH _ (users_inv_create ins s Hinv))
      as [Hinv' [Hids [Hvals [Hdata Hcount]]]].
    rewrite create_users_cons. cbn [fst snd].
    split; [exact Hinv'|]. split; [|split; [|split]].
    + cbn [List.length seq map]. f_equal.
      * simpl. lia.
      * rewrite Hids, <- seq_shift, map_map. apply map_ext. intros i.
        simpl. lia.
    + rewrite Hvals, Happ. unfold map_values. rewrite map_app. simpl.
      rewrite <- app_assoc. reflexivity.
    + cbn [map]. rewrite Hdata. reflexivity.
    + rewrite Hcount. cbn [List.length]. simpl. lia.
Qed.

Lemma map_get_held (m : NumMap Users.User) (u : Users.User) :
  Forall (fun kv => fst kv = Users.id (snd kv)) m ->
  StronglySorted (fun a b => Users.id a < Users.id b)%Z (map_values m) ->
  In u (map_values m) ->
  Users.map_get (Users.id u) m = Some u.
Proof.
  induction m as [|[k v] m IH]; simpl; intros Hkeys Hsorted Hin; [destruct Hin|].
  inversion Hkeys as [|? ? Hk Hrest]; subst. simpl in Hk. subst k.
  apply StronglySorted_inv in Hsorted. destruct Hsorted as [Hsorted Hv].
  destruct Hin as [->|Hin].
  - rewrite Z.eqb_refl. reflexivity.
  - rewrite Forall_forall in Hv. specialize (Hv u Hin).
    destruct (Z.eqb_spec (Users.id u) (Users.id v)) as [E|_]; [lia|].
    apply IH; assumption.
Qed.

Lemma map_get_absent (m : NumMap Users.User) (k : Z) :
  ~ In k (map fst m) -> Users.map_get k m = None.
Proof.
  induction m as [|[k' v] m IH]; simpl; intros Hnot; [reflexivity|].
  destruct (Z.eqb_spec k k') as [->|_]; [tauto|]. apply IH. tauto.
Qed.

(** X19. [createUser] called N times on a new store gives the users the
    ids 1, ..., N in that order and the names and passwords of the calls;
    afterwards [getUser] finds each of them under its id, and answers
    [undefined] for any other id. *)
Theorem createUser_then_getUser :
  forall calls : list Users.InsertUser,
    map Users.id (fst (create_users calls Users.new_UserStorage))
    = map Z.of_nat (seq 1 (List.length calls))
    /\ map (fun u => (Users.username u, Users.password u))
         (fst (create_users calls Users.new_UserStorage))
       = map (fun c => (Users.ins_username c, Users.ins_password c)) calls
    /\ (forall u,
           In u (fst (create_users calls Users.new_UserStorage)) ->
           Users.getUser (Users.id u)
             (snd (create_users calls Users.new_UserStorage))
           = Some u)
    /\ (forall k,
           (k < 1 \/ Z.of_nat (List.length calls) < k)%Z ->
           Users.getUser k (snd (create_users calls Users.new_UserStorage))
           = None).
Proof.
  intros calls.
  destruct (create_users_spec calls Users.new_UserStorage users_inv_new)
    as [[Hsorted Hkeys] [Hids [Hvals [Hdata Hcount]]]].
  simpl app in Hvals.
  assert (Hids' : map Users.id (fst (create_users calls Users.new_UserStorage))
                  = map Z.of_nat (seq 1 (List.length calls))).
  { rewrite Hids, <- seq_shift, map_map. apply map_ext. intros i.
    change (Users.currentUserId Users.new_UserStorage) with 1%Z. lia. }
  assert (Hfst : Forall (fun kv => fst kv = Users.id (snd kv))
                   (Users.users (snd (create_users calls Users.new_UserStorage)))).
  { eapply Forall_impl; [|exact Hkeys]. simpl. intros kv [Hk _]. exact Hk. }
  split; [exact Hids'|]. split; [exact Hdata|]. split.
  - intros u Hin. unfold Users.getUser. apply map_get_held; try assumption.
    rewrite Hvals. exact Hin.
  - intros k Hk. unfold Users.getUser. apply map_get_absent.
    assert (Hkeys' : map fst (Users.users (snd (create_users calls Users.new_UserStorage)))
                     = map Z.of_nat (seq 1 (List.length calls))).
    { rewrite <- Hids', <- Hvals. unfold map_values. rewrite map_map.
      apply map_ext_in. intros kv Hin.
      rewrite Forall_forall in Hfst. apply Hfst, Hin. }
    rewrite Hkeys', in_map_iff. intros [i [Hi Hin]]. apply in_seq in Hin. lia.
Qed.

Lemma find_first_sorted (f : Users.User -> bool) (l : list Users.User)
    (u : Users.User) :
  StronglySorted (fun a b => Users.id a < Users.id b)%Z l ->
  find f l = Some u ->
  forall u', In u' l -> f u' = true -> (Users.id u <= Users.id u')%Z.
Proof.
  induction 1 as [|a l Hl IH Ha]; simpl; [discriminate|].
  destruct (f a) eqn:Fa.
  - intros H; injection H as <-. intros u' [<-|Hin] _; [lia|].
    rewrite Forall_forall in Ha. specialize (Ha u' Hin). lia.
  - intros Hfind u' [<-|Hin] Hu'; [congruence|]. apply IH; assumption.
Qed.

Lemma find_app_found {A} (f : A -> bool) (l rest : list A) (x : A) :
  find f l = Some x -> find f (l ++ rest) = Some x.
Proof.
  induction l as [|a l IH]; simpl; [discriminate|].
  destruct (f a); [auto | exact IH].
Qed.

(** X20. [getUserByUsername] answers the user created first under that
    name, and [undefined] when no user has it.  [createUser] accepts a
    name already taken, and the lookup then still answers the earlier
    user. *)
Theorem getUserByUsername_first_created :
  forall (calls : list Users.InsertUser) (name : jsstring),
    (Users.getUserByUsername name (snd (create_users calls Users.new_UserStorage))
     = None
     <-> forall u, In u (fst (create_users calls Users.new_UserStorage)) ->
                   Users.username u <> name)
    /\ (forall u,
           Users.getUserByUsername name
             (snd (create_users calls Users.new_UserStorage)) = Some u ->
           In u (fst (create_users calls Users.new_UserStorage))
           /\ Users.username u = name
           /\ forall u', In u' (fst (create_users calls Users.new_UserStorage)) ->
                         Users.username u' = name ->
                         (Users.id u <= Users.id u')%Z)
    /\ (forall ins u,
           Users.getUserByUsername name
             (snd (create_users calls Users.new_UserStorage)) = Some u ->
           Users.getUserByUsername name
             (snd (Users.createUser ins
                     (snd (create_users calls Users.new_UserStorage))))
           = Some u).
Proof.
  intros calls name.
  destruct (create_users_spec calls Users.new_UserStorage users_inv_new)
    as [Hinv [_ [Hvals _]]].
  simpl app in Hvals. unfold Users.getUserByUsername.
  split; [split|split].
  - intros Hnone u Hin Hname. rewrite <- Hvals in Hin.
    pose proof (find_none _ _ Hnone u Hin) as Hf. simpl in Hf.
    apply str_eqb_neq in Hf. contradiction.
  - intros Hall.
    destruct (find _ (map_values _)) as [u|] eqn:Hfind; [|reflexivity].
    apply find_some in Hfind. destruct Hfind as [Hin Hf].
    rewrite Hvals in Hin. apply str_eqb_eq in Hf.
    destruct (Hall u Hin Hf).
  - intros u Hfind. pose proof (find_some _ _ Hfind) as [Hin Hf].
    rewrite Hvals in Hin. apply str_eqb_eq in Hf.
    split; [exact Hin|]. split; [exact Hf|].
    intros u' Hin' Hname'. rewrite <- Hvals in Hin'.
    apply (find_first_sorted _ _ u (proj1 Hinv) Hfind u' Hin').
    apply str_eqb_eq, Hname'.
  - intros ins u Hfind.
    rewrite (createUser_appends ins _ Hinv). unfold map_values in *.
    rewrite map_app. apply find_app_found, Hfind.
Qed.

(** alice, bob, and a second alice: the lookup answers the first. *)
Lemma getUserByUsername_first_created_alice :
  Users.getUserByUsername (lit "alice")
    (snd (Users.createUser alice_again
            (snd (create_users [alice; bob] Users.new_UserStorage))))
  = Some {| Users.id := 1; Users.username := lit "alice";
            Users.password := lit "a" |}.
Proof.
  apply (proj2 (proj2 (getUserByUsername_first_created [alice; bob] (lit "alice")))).
  reflexivity.
Defined.

(** ** The page *)


Lemma handle_keeps_languages (codes : list jsstring) (s : Client.State)
    (e : Client.Event) :
  ~ In [] codes ->
  Client.sourceLanguage s <> [] /\ Client.targetLanguage s <> [] ->
  Client.offered codes e ->
  Client.sourceLanguage (Client.handle s e) <> []
  /\ Client.targetLanguage (Client.handle s e) <> [].
Proof.
  intros Hcodes [Hsrc Htgt] He. destruct e; simpl in *; try (split; assumption).
  - split; [|exact Htgt]. intros ->. contradiction.
  - split; [exact Hsrc|]. unfold Client.target_items in He.
    apply filter_In in He. destruct He as [He _]. intros ->. contradiction.
  - unfold Client.handleSwapLanguages.
    destruct (str_eqb (Client.sourceLanguage s) (lit "auto"));
      simpl; split; assumption.
  - unfold Client.auto_translate_effect.
    destruct (str_eqb (Client.trim (Client.sourceText s)) []);
      simpl; split; assumption.
Qed.

Lemma fold_handle_invariant (I : Client.State -> Prop) (codes : list jsstring) :
  (forall s e, I s -> Client.offered codes e -> I (Client.handle s e)) ->
  forall events s,
    I s -> Forall (Client.offered codes) events ->
    I (fold_left Client.handle events s).
Proof.
  intros Hstep. induction events as [|e events IH]; intros s Hs Hall; simpl.
  - exact Hs.
  - inversion Hall; subst. apply IH; [apply Hstep|]; assumption.
Qed.




Lemma trim_start_nonempty (s : jsstring) : Client.trim_start s <> [] -> s <> [].
Proof. destruct s; simpl; [tauto | discriminate]. Qed.

Lemma trim_nonempty (s : jsstring) : Client.trim s <> [] -> s <> [].
Proof.
  unfold Client.trim. intros H. apply trim_start_nonempty.
  intros E. apply H. rewrite E. reflexivity.
Qed.

(** X22. What the page sends to POST /api/translate passes the handler's
    check.  With a table of languages without an empty code, after any
    events: the effect and the Translate button send nothing while the
    source text is empty or white space only (the effect then clears the
    translation); otherwise the handler does not answer 400 to what they
    send, and a 200 answer names the source and target languages the page
    had. *)
Theorem client_request_passes_check :
  forall (codes : list jsstring) (events : list Client.Event)
         (w : World) (now : Z) (store : MemStorage),
    ~ In [] codes ->
    Forall (Client.offered codes) events ->
    (Client.trim (Client.sourceText (Client.after events)) = [] ->
     snd (Client.auto_translate_effect (Client.after events)) = None
     /\ Client.translatedText
          (fst (Client.auto_translate_effect (Client.after events))) = []
     /\ forall isPending,
          Client.translate_button_disabled isPending (Client.after events) = true)
    /\ (Client.trim (Client.sourceText (Client.after events)) <> [] ->
        snd (Client.auto_translate_effect (Client.after events))
        = Some {| Client.translate_call :=
                    Client.translate_button_click (Client.after events);
                  Client.detect_call :=
                    if str_eqb (Client.sourceLanguage (Client.after events))
                         (lit "auto")
                    then Some (Client.sourceText (Client.after events))
                    else None |}
        /\ Client.translate_button_disabled false (Client.after events) = false
        /\ status (response
                     (post_translate w now
                        (Client.body_of
                           (Client.translate_button_click (Client.after events)))
                        store)) <> 400%Z
        /\ forall v src dst,
             payload (response
                        (post_translate w now
                           (Client.body_of
                              (Client.translate_button_click (Client.after events)))
                           store))
             = TranslateJson v src dst ->
             src = Client.sourceLanguage (Client.after events)
             /\ dst = Client.targetLanguage (Client.after events)).
Proof.
  intros codes events w now store Hcodes Hall.
  assert (Hlang : Client.sourceLanguage (Client.after events) <> []
                  /\ Client.targetLanguage (Client.after events) <> []).
  { unfold Client.after.
    apply (fold_handle_invariant
             (fun s => Client.sourceLanguage s <> []
                       /\ Client.targetLanguage s <> []) codes).
    - intros s e. apply handle_keeps_languages, Hcodes.
    - split; discriminate.
    - exact Hall. }
  destruct Hlang as [Hsrc Htgt].
  set (s := Client.after events) in *. split.
  - intros Hblank. unfold Client.auto_translate_effect,
      Client.translate_button_disabled. rewrite Hblank. simpl. auto.
  - intros Hfull.
    pose proof (trim_nonempty _ Hfull) as Htext.
    unfold Client.auto_translate_effect, Client.translate_button_disabled.
    rewrite (proj2 (str_eqb_neq _ _) Hfull).
    split; [reflexivity|]. split.
    { destruct (Client.trim (Client.sourceText s)); [congruence|reflexivity]. }
    unfold Client.body_of, Client.translate_button_click. cbn [Client.data_text
      Client.data_from Client.data_to].
    rewrite (post_translate_valid w now store _ _ _ Htext Htgt).
    assert (Hfrom : or_default (Some (Client.sourceLanguage s)) (lit "auto")
                    = Client.sourceLanguage s).
    { destruct (Client.sourceLanguage s); [congruence|reflexivity]. }
    rewrite Hfrom.
    destruct (translateText w (Client.sourceText s) (Client.sourceLanguage s)
                (Client.targetLanguage s)) as [[v|e] reqs];
      [destruct (to_string_returns v)|];
      cbn [response status payload res_json res_status_json].
    + split; [discriminate|]. intros v' src dst H. injection H as _ <- <-.
      split; reflexivity.
    + split; [discriminate|]. intros v' src dst H. discriminate H.
    + split; [discriminate|]. intros v' src dst H. discriminate H.
Qed.

(** Typing ["Hola"] with the initial languages. *)
Lemma client_request_passes_check_typed :
  Client.translate_button_disabled false
    (Client.after [Client.SourceTyped (lit "Hola")]) = false
  /\ status (response
               (post_translate (Demo.world None None Demo.offline) 1000
                  (Client.body_of
                     (Client.translate_button_click
                        (Client.after [Client.SourceTyped (lit "Hola")])))
                  new_MemStorage)) <> 400%Z.
Proof.
  destruct (client_request_passes_check [lit "auto"; lit "es"]
              [Client.SourceTyped (lit "Hola")]
              (Demo.world None None Demo.offline) 1000 new_MemStorage)
    as [_ Hsend].
  - simpl. intros [H|[H|[]]]; discriminate H.
  - repeat constructor.
  - destruct Hsend as [_ [Hbutton [Hstatus _]]]; [discriminate|].
    split; [exact Hbutton | exact Hstatus].
Defined.
